(** * WONAuth::Session — a shallow embedding of Session.cpp

    Session.cpp implements a reference-counted handle ([Session]) onto a
    shared record ([SessionData]).  The embedding keeps the heap of records,
    the table of live handles, the static identifier counter and a log of
    the key / certificate objects handed to [delete] explicit, and runs
    every method as a partial function on that state ([None] stands for
    undefined behaviour: a dangling handle or a null dereference).

    The critical section [mCrit] / [AutoCrit] is not modelled: the embedding
    is sequential, every method body is one atomic step. *)

From stdpp Require Import gmap list strings pretty.
From Stdlib Require Import ZArith Lia.

Local Open Scope Z_scope.

(** ** Machine integers *)

(** [unsigned short] is 16 bits wide; [int] is wider, so the integral
    promotion of an [unsigned short] operand never wraps. *)
Definition USHRT_MAX : Z := 65535.

Definition to_ushort (z : Z) : Z := z mod 65536.

Definition is_ushort (z : Z) : Prop := 0 ≤ z ≤ USHRT_MAX.

(** ** Encrypt attributes *)

(** Modelled from the spec: the enumeration and the class are declared in
    Session.h, which is missing.  The spec gives the mode as
    [None], [Blowfish] or an unrecognised tag, and three booleans. *)
Inductive EncryptMode : Set :=
  | ENCRYPT_NONE
  | ENCRYPT_BLOWFISH
  | ENCRYPT_OTHER.

Global Instance EncryptMode_eq_dec : EqDecision EncryptMode.
Proof. solve_decision. Defined.

Record EncryptAttributes : Set := mkEncryptAttributes {
  mEncryptMode : EncryptMode;
  mIsSequenced : bool;
  mIsSession   : bool;
  mEncryptAll  : bool
}.

(** Modelled from the spec: [EncryptAttributes()] is the default
    (no-encryption) descriptor; its constructor lives in Session.h. *)
Definition EncryptAttributes_default : EncryptAttributes :=
  mkEncryptAttributes ENCRYPT_NONE false false false.

(** ** Session records *)

(** Records live at heap addresses; keys and certificates are opaque objects
    owned through a pointer, named here by their identity. *)
Abbreviation addr := positive.
Abbreviation keyid := positive.
Abbreviation certid := positive.

(** What [delete] has been called on. *)
Inductive object : Set :=
  | KeyObj (k : keyid)
  | CertObj (c : certid).

Global Instance object_eq_dec : EqDecision object.
Proof. solve_decision. Defined.

(** Modelled from the spec: the declaration of [SessionData] is in
    Session.h; the fields are those of the constructor's initialiser list,
    with the types of the spec's data model ([id], [recvSeq], [sendSeq]:
    uint16; [referenceCount] and the reserved counters: integers;
    [lastAction]: a timestamp).  A null pointer is [None]. *)
Record SessionData : Set := mkSessionData {
  mRefCt      : Z;
  mId         : Z;
  mIsRemote   : bool;
  mEncryptAttr : EncryptAttributes;
  mKeyP       : option keyid;
  mCertP      : option certid;
  mLastAction : Z;
  mRecvSeq    : Z;
  mSendSeq    : Z;
  mRecvCt     : Z;
  mSendCt     : Z;
  mProcCt     : Z
}.

(** [SessionData::SessionData()] *)
Definition SessionData_new : SessionData :=
  {| mRefCt := 1; mId := 0; mIsRemote := false;
     mEncryptAttr := EncryptAttributes_default;
     mKeyP := None; mCertP := None; mLastAction := 0;
     mRecvSeq := 0; mSendSeq := 0;
     mRecvCt := 0; mSendCt := 0; mProcCt := 0 |}.

(** Field assignments. *)
Definition set_mRefCt (v : Z) (r : SessionData) : SessionData :=
  mkSessionData v (mId r) (mIsRemote r) (mEncryptAttr r) (mKeyP r) (mCertP r)
    (mLastAction r) (mRecvSeq r) (mSendSeq r) (mRecvCt r) (mSendCt r) (mProcCt r).

Definition set_mId (v : Z) (r : SessionData) : SessionData :=
  mkSessionData (mRefCt r) v (mIsRemote r) (mEncryptAttr r) (mKeyP r) (mCertP r)
    (mLastAction r) (mRecvSeq r) (mSendSeq r) (mRecvCt r) (mSendCt r) (mProcCt r).

Definition set_mIsRemote (v : bool) (r : SessionData) : SessionData :=
  mkSessionData (mRefCt r) (mId r) v (mEncryptAttr r) (mKeyP r) (mCertP r)
    (mLastAction r) (mRecvSeq r) (mSendSeq r) (mRecvCt r) (mSendCt r) (mProcCt r).

Definition set_mEncryptAttr (v : EncryptAttributes) (r : SessionData) : SessionData :=
  mkSessionData (mRefCt r) (mId r) (mIsRemote r) v (mKeyP r) (mCertP r)
    (mLastAction r) (mRecvSeq r) (mSendSeq r) (mRecvCt r) (mSendCt r) (mProcCt r).

Definition set_mKeyP (v : option keyid) (r : SessionData) : SessionData :=
  mkSessionData (mRefCt r) (mId r) (mIsRemote r) (mEncryptAttr r) v (mCertP r)
    (mLastAction r) (mRecvSeq r) (mSendSeq r) (mRecvCt r) (mSendCt r) (mProcCt r).

Definition set_mCertP (v : option certid) (r : SessionData) : SessionData :=
  mkSessionData (mRefCt r) (mId r) (mIsRemote r) (mEncryptAttr r) (mKeyP r) v
    (mLastAction r) (mRecvSeq r) (mSendSeq r) (mRecvCt r) (mSendCt r) (mProcCt r).

Definition set_mLastAction (v : Z) (r : SessionData) : SessionData :=
  mkSessionData (mRefCt r) (mId r) (mIsRemote r) (mEncryptAttr r) (mKeyP r) (mCertP r)
    v (mRecvSeq r) (mSendSeq r) (mRecvCt r) (mSendCt r) (mProcCt r).

Definition set_mRecvSeq (v : Z) (r : SessionData) : SessionData :=
  mkSessionData (mRefCt r) (mId r) (mIsRemote r) (mEncryptAttr r) (mKeyP r) (mCertP r)
    (mLastAction r) v (mSendSeq r) (mRecvCt r) (mSendCt r) (mProcCt r).

Definition set_mSendSeq (v : Z) (r : SessionData) : SessionData :=
  mkSessionData (mRefCt r) (mId r) (mIsRemote r) (mEncryptAttr r) (mKeyP r) (mCertP r)
    (mLastAction r) (mRecvSeq r) v (mRecvCt r) (mSendCt r) (mProcCt r).

(** ** Program state *)

(** A handle ([Session] object) is named by the order of its construction;
    its slot holds [mRefP], or [None] once the handle has been destroyed.
    Slot 0 is the static [Session::gInvalidSession]. *)
Abbreviation handle := nat.

Record State : Type := mkState {
  heap           : gmap positive SessionData;
  handles        : list (option positive);
  gNextSessionId : Z;
  released       : list object
}.

Definition gInvalidSession : handle := 0%nat.

Definition set_heap (hp : gmap positive SessionData) (st : State) : State :=
  mkState hp (handles st) (gNextSessionId st) (released st).

Definition set_handles (hs : list (option positive)) (st : State) : State :=
  mkState (heap st) hs (gNextSessionId st) (released st).

Definition set_gNextSessionId (g : Z) (st : State) : State :=
  mkState (heap st) (handles st) g (released st).

Definition set_released (l : list object) (st : State) : State :=
  mkState (heap st) (handles st) (gNextSessionId st) l.

(** [h.mRefP], for a handle that is alive. *)
Definition mRefP (st : State) (h : handle) : option addr :=
  handles st !! h ≫= id.

(** [*h.mRefP], for a handle that is alive and whose record is. *)
Definition deref (st : State) (h : handle) : option SessionData :=
  a ← mRefP st h; heap st !! a.

(** [*a = r] for a live record. *)
Definition store (a : addr) (r : SessionData) (st : State) : State :=
  set_heap (<[a := r]> (heap st)) st.

(** [new SessionData] *)
Definition new_SessionData (st : State) : addr * State :=
  let a := fresh (dom (heap st)) in (a, store a SessionData_new st).

(** What [delete p] adds to the log ([delete NULL] does nothing). *)
Definition delete_key (p : option keyid) : list object :=
  match p with Some k => [KeyObj k] | None => [] end.

Definition delete_cert (p : option certid) : list object :=
  match p with Some c => [CertObj c] | None => [] end.

(** [delete a]: runs [SessionData::~SessionData] and frees the record. *)
Definition delete_SessionData (a : addr) (st : State) : option State :=
  r ← heap st !! a;
  Some (set_released (released st ++ delete_key (mKeyP r) ++ delete_cert (mCertP r))
          (set_heap (delete a (heap st)) st)).

(** [InterlockedIncrement(&(a->mRefCt))] *)
Definition InterlockedIncrement (a : addr) (st : State) : option State :=
  r ← heap st !! a;
  Some (store a (set_mRefCt (mRefCt r + 1) r) st).

(** [if (InterlockedDecrement(&(a->mRefCt)) <= 0) delete a;] *)
Definition release (a : addr) (st : State) : option State :=
  r ← heap st !! a;
  let c := mRefCt r - 1 in
  let st1 := store a (set_mRefCt c r) st in
  if c <=? 0 then delete_SessionData a st1 else Some st1.

(** ** Session: constructors and destructor *)

(** [Session::Session()] *)
Definition Session_default (st : State) : option (handle * State) :=
  a ← mRefP st gInvalidSession;
  st1 ← InterlockedIncrement a st;
  Some (length (handles st1), set_handles (handles st1 ++ [Some a]) st1).

(** [Session::Session(unsigned short theId)], the private constructor. *)
Definition Session_id (theId : Z) (st : State) : option (handle * State) :=
  let '(a, st1) := new_SessionData st in
  r ← heap st1 !! a;
  let st2 := store a (set_mId theId r) st1 in
  Some (length (handles st2), set_handles (handles st2 ++ [Some a]) st2).

(** [Session::Session(const Session& theSessR)] *)
Definition Session_copy (theSessR : handle) (st : State) : option (handle * State) :=
  a ← mRefP st theSessR;
  st1 ← InterlockedIncrement a st;
  Some (length (handles st1), set_handles (handles st1 ++ [Some a]) st1).

(** [Session::~Session()] *)
Definition Session_destroy (h : handle) (st : State) : option State :=
  a ← mRefP st h;
  st1 ← release a st;
  Some (set_handles (<[h := None]> (handles st1)) st1).

(** ** Session: private methods *)

(** [Session::GetNextSessionId] on the counter alone: the value returned
    and the counter afterwards. *)
Definition next_id (g : Z) : Z * Z :=
  let aRet := g in
  let g1 := to_ushort (g + 1) in
  let g2 := if g1 =? 0 then 1 else g1 in
  (aRet, g2).

(** [Session::GetNextSessionId] *)
Definition GetNextSessionId (st : State) : Z * State :=
  let '(aRet, g) := next_id (gNextSessionId st) in
  (aRet, set_gNextSessionId g st).

(** ** Session: public methods *)

(** [Session::operator=] *)
Definition Session_assign (h theSessR : handle) (st : State) : option State :=
  a ← mRefP st h;
  b ← mRefP st theSessR;
  if decide (a ≠ b) then
    st1 ← InterlockedIncrement b st;
    st2 ← release a st1;
    Some (set_handles (<[h := Some b]> (handles st2)) st2)
  else Some st.

(** [Session::IsValid] *)
Definition IsValid (st : State) (h : handle) : option bool :=
  r ← deref st h;
  if mId r =? 0 then Some false
  else Some (if decide (mEncryptMode (mEncryptAttr r) ≠ ENCRYPT_NONE)
             then bool_decide (is_Some (mKeyP r)) && bool_decide (is_Some (mCertP r))
             else true).

(** Modelled from the spec: [Session::Touch] is defined in Session.h; it
    sets [lastAction] to the current time, here the argument [now]. *)
Definition Touch (now : Z) (h : handle) (st : State) : option State :=
  a ← mRefP st h;
  r ← heap st !! a;
  Some (store a (set_mLastAction now r) st).

(** [Session::Init]; [now] is the clock read by the final [Touch()]. *)
Definition Init (theAttr : EncryptAttributes) (theKeyP : option keyid)
    (theCertP : option certid) (theId : Z) (now : Z)
    (h : handle) (st : State) : option State :=
  a0 ← mRefP st h;
  r0 ← heap st !! a0;
  st1 ← (if 1 <? mRefCt r0 then
           st' ← release a0 st;
           let '(a', st'') := new_SessionData st' in
           Some (set_handles (<[h := Some a']> (handles st'')) st'')
         else Some st);
  a ← mRefP st1 h;
  r ← heap st1 !! a;
  let '(r1, st2) :=
    if 0 <? theId then (set_mIsRemote true (set_mId theId r), st1)
    else let '(i, st') := GetNextSessionId st1 in
         (set_mIsRemote false (set_mId i r), st') in
  let r2 := set_mCertP theCertP (set_mKeyP theKeyP (set_mEncryptAttr theAttr r1)) in
  let r3 := set_mRecvSeq 0 (set_mSendSeq 0 r2) in
  Touch now h (store a r3 st2).

(** [Session::Session(theAttr, theKeyP, theCertP, theId)] *)
Definition Session_init (theAttr : EncryptAttributes) (theKeyP : option keyid)
    (theCertP : option certid) (theId : Z) (now : Z)
    (st : State) : option (handle * State) :=
  let '(a, st1) := new_SessionData st in
  let h := length (handles st1) in
  st2 ← Init theAttr theKeyP theCertP theId now h
          (set_handles (handles st1 ++ [Some a]) st1);
  Some (h, st2).

(** [Session::TestSetRecvSeq] *)
Definition TestSetRecvSeq (theSeq : Z) (isReliable : bool)
    (h : handle) (st : State) : option (bool * State) :=
  a ← mRefP st h;
  r ← heap st !! a;
  let aRet := if isReliable then mRecvSeq r + 1 =? theSeq
              else mRecvSeq r <? theSeq in
  Some (aRet, if aRet then store a (set_mRecvSeq theSeq r) st else st).

(** [Session::TestSetSendSeq] *)
Definition TestSetSendSeq (theSeq : Z) (isReliable : bool)
    (h : handle) (st : State) : option (bool * State) :=
  a ← mRefP st h;
  r ← heap st !! a;
  let aRet := if isReliable then mSendSeq r + 1 =? theSeq
              else mSendSeq r <? theSeq in
  Some (aRet, if aRet then store a (set_mSendSeq theSeq r) st else st).

(** ** Diagnostic output *)

(** The renderers Session.cpp calls but does not define: [ctime], and the
    stream insertions of [SymmetricKey] and [AuthCertificateBase]. *)
Record Printers : Type := mkPrinters {
  ctime     : Z → string;
  show_key  : keyid → string;
  show_cert : certid → string
}.

Definition endl : string := String (Ascii.ascii_of_nat 10) EmptyString.

(** Insertion of a [bool] and of an [unsigned short] into an [ostream]. *)
Definition show_bool (b : bool) : string := if b then "1" else "0".
Definition show_ushort (z : Z) : string := pretty z.

(** [*(aTStr + strlen(aTStr) - 1) = '\0']: drops the last character; on the
    empty string the write is out of bounds. *)
Fixpoint clobber_last (s : string) : option string :=
  match s with
  | EmptyString => None
  | String c EmptyString => Some EmptyString
  | String c s' => String c <$> clobber_last s'
  end.

(** [operator<<(std::ostream&, const EncryptAttributes&)] *)
Definition show_EncryptAttributes (theAttrR : EncryptAttributes) : string :=
  "(" +:+
  match mEncryptMode theAttrR with
  | ENCRYPT_NONE => "NONE"
  | ENCRYPT_BLOWFISH => "BLOWFISH"
  | ENCRYPT_OTHER => "UNKNOWN"
  end +:+
  " " +:+ show_bool (mIsSequenced theAttrR) +:+
  " " +:+ show_bool (mIsSession theAttrR) +:+
  " " +:+ show_bool (mEncryptAll theAttrR) +:+ ")".

(** [Session::Dump]: the text written to [os]; [None] when the body
    dereferences a null pointer. *)
Definition Dump (P : Printers) (verbose : bool) (st : State) (h : handle)
    : option string :=
  r ← deref st h;
  if negb verbose then
    aTStr ← clobber_last (ctime P (mLastAction r));
    Some ("(Session: " +:+ show_ushort (mId r) +:+ " " +:+ aTStr +:+ ")")
  else
    let os1 :=
      "Session (Id=" +:+ show_ushort (mId r) +:+ ")" +:+ endl +:+
      "  LastAction  = " +:+ ctime P (mLastAction r) +:+
      "  EncryptAttr = " +:+ show_EncryptAttributes (mEncryptAttr r) +:+ endl +:+
      "  RecvSeq     = " +:+ show_ushort (mRecvSeq r) +:+ endl +:+
      "  SendSeq     = " +:+ show_ushort (mSendSeq r) +:+ endl +:+
      "  SymmetricKey: " in
    let os2 :=
      match mKeyP r with
      | Some k => os1 +:+ show_key P k
      | None => os1 +:+ "NULL"
      end +:+ "Certificate: " in
    match mCertP r with
    | Some _ => k ← mKeyP r; Some (os2 +:+ show_key P k)
    | None => Some (os2 +:+ "NULL")
    end.

(** ** Programs over handles *)

(** One call a client can make.  [gInvalidSession] is a [const] object with
    static storage: it is never the target of [Init] or of an assignment and
    is not destroyed while the program runs. *)
Inductive op : Type :=
  | OpDefault
  | OpCreate (theAttr : EncryptAttributes) (theKeyP : option keyid)
             (theCertP : option certid) (theId : Z) (now : Z)
  | OpSearchKey (theId : Z)
  | OpCopy (theSessR : handle)
  | OpDestroy (h : handle)
  | OpAssign (h theSessR : handle)
  | OpIsValid (h : handle)
  | OpInit (h : handle) (theAttr : EncryptAttributes) (theKeyP : option keyid)
           (theCertP : option certid) (theId : Z) (now : Z)
  | OpTouch (h : handle) (now : Z)
  | OpTestSetRecvSeq (h : handle) (theSeq : Z) (isReliable : bool)
  | OpTestSetSendSeq (h : handle) (theSeq : Z) (isReliable : bool)
  | OpDump (h : handle) (verbose : bool).

Inductive result : Type :=
  | RUnit
  | RHandle (h : handle)
  | RBool (b : bool)
  | RText (s : string).

Definition ret_handle (x : option (handle * State)) : option (result * State) :=
  '(h, st) ← x; Some (RHandle h, st).

Definition ret_unit (x : option State) : option (result * State) :=
  st ← x; Some (RUnit, st).

Definition ret_bool (x : option (bool * State)) : option (result * State) :=
  '(b, st) ← x; Some (RBool b, st).

Definition mutable (h : handle) : bool := bool_decide (h ≠ gInvalidSession).

Definition run (P : Printers) (st : State) (o : op) : option (result * State) :=
  match o with
  | OpDefault => ret_handle (Session_default st)
  | OpCreate theAttr theKeyP theCertP theId now =>
      ret_handle (Session_init theAttr theKeyP theCertP theId now st)
  | OpSearchKey theId => ret_handle (Session_id theId st)
  | OpCopy theSessR => ret_handle (Session_copy theSessR st)
  | OpDestroy h =>
      if mutable h then ret_unit (Session_destroy h st) else None
  | OpAssign h theSessR =>
      if mutable h then ret_unit (Session_assign h theSessR st) else None
  | OpIsValid h => b ← IsValid st h; Some (RBool b, st)
  | OpInit h theAttr theKeyP theCertP theId now =>
      if mutable h then ret_unit (Init theAttr theKeyP theCertP theId now h st)
      else None
  | OpTouch h now => ret_unit (Touch now h st)
  | OpTestSetRecvSeq h theSeq isReliable =>
      ret_bool (TestSetRecvSeq theSeq isReliable h st)
  | OpTestSetSendSeq h theSeq isReliable =>
      ret_bool (TestSetSendSeq theSeq isReliable h st)
  | OpDump h verbose => s ← Dump P verbose st h; Some (RText s, st)
  end.

(** A straight-line program. *)
Fixpoint run_all (P : Printers) (st : State) (os : list op) : option State :=
  match os with
  | [] => Some st
  | o :: os' => '(_, st') ← run P st o; run_all P st' os'
  end.

(** The values a straight-line program returns. *)
Fixpoint run_results (P : Printers) (st : State) (os : list op)
    : option (list result) :=
  match os with
  | [] => Some []
  | o :: os' =>
      '(res, st') ← run P st o;
      l ← run_results P st' os';
      Some (res :: l)
  end.

(** The state before any dynamic initialisation:
    [unsigned short Session::gNextSessionId = 1]. *)
Definition empty_state : State := mkState ∅ [] 1 [].

(** The state after static initialisation:
    [const Session Session::gInvalidSession(0)]. *)
Definition sentinel : addr := fresh (dom (∅ : gmap positive SessionData)).

Definition initial_state : State :=
  mkState {[ sentinel := set_mId 0 SessionData_new ]} [Some sentinel] 1 [].

(** ** Specification vocabulary *)

(** The acceptance rule of the sequence test, in the words of the
    specification: the exact next value on a reliable channel, any strictly
    greater value otherwise. *)
Definition accepts (isReliable : bool) (storedSeq seq : Z) : Prop :=
  if isReliable then seq = storedSeq + 1 else storedSeq < seq.

(** Two views of a record that agree on both sequence numbers. *)
Definition same_seqs (r r' : SessionData) : Prop :=
  mRecvSeq r' = mRecvSeq r ∧ mSendSeq r' = mSendSeq r.

(** Every record alive in both heaps has the same sequence numbers in both. *)
Definition seqs_kept (hp hp' : gmap positive SessionData) : Prop :=
  ∀ a r r', hp !! a = Some r → hp' !! a = Some r' → same_seqs r r'.

(** [n] successive calls of [GetNextSessionId]: the identifiers returned, in
    order, and the state afterwards. *)
Fixpoint generate (n : nat) (st : State) : list Z * State :=
  match n with
  | O => ([], st)
  | S n' =>
      let '(i, st1) := GetNextSessionId st in
      let '(l, st2) := generate n' st1 in
      (i :: l, st2)
  end.

(** The number of identifiers, as a count of calls. *)
Definition period : nat := Z.to_nat USHRT_MAX.

(** Closed form of the [k]-th identifier handed out when the counter
    starts at [g]. *)
Definition nth_id (g k : Z) : Z := (g - 1 + k) mod USHRT_MAX + 1.

(** The record [Init] leaves behind, from the record [r] it writes into:
    [g] is the value of [gNextSessionId] on entry. *)
Definition init_record (theAttr : EncryptAttributes) (theKeyP : option keyid)
    (theCertP : option certid) (theId now g : Z) (r : SessionData) : SessionData :=
  mkSessionData (mRefCt r) (if 0 <? theId then theId else g) (0 <? theId)
    theAttr theKeyP theCertP now 0 0 (mRecvCt r) (mSendCt r) (mProcCt r).

(** The counter [Init] leaves behind. *)
Definition init_counter (theId g : Z) : Z :=
  if 0 <? theId then g else (next_id g).2.

(** ** Reachable states and their invariant *)

(** The states a client program can bring about. *)
Inductive reachable (P : Printers) : State → Prop :=
  | reachable_init : reachable P initial_state
  | reachable_step st o res st' :
      reachable P st → run P st o = Some (res, st') → reachable P st'.

(** The number of live handles whose [mRefP] is [a]. *)
Fixpoint refs (a : addr) (hs : list (option positive)) : Z :=
  match hs with
  | [] => 0
  | x :: hs' => (if decide (x = Some a) then 1 else 0) + refs a hs'
  end.

(** [a->mRefCt], read as 0 where no record lives. *)
Definition refcount_at (hp : gmap positive SessionData) (a : addr) : Z :=
  match hp !! a with Some r => mRefCt r | None => 0 end.

(** What reference counting maintains: every record is counted by exactly
    the handles bound to it and has at least one; the counter of the
    generator stays in 1..65535; [gInvalidSession] stays bound to the
    record allocated for it, which is alive and keeps identifier 0. *)
Record Inv (st : State) : Prop := mkInv {
  inv_gen : 1 ≤ gNextSessionId st ≤ USHRT_MAX;
  inv_count : ∀ a, refcount_at (heap st) a = refs a (handles st);
  inv_live : ∀ a r, heap st !! a = Some r → 1 ≤ mRefCt r;
  inv_sentinel : ∃ r0, mRefP st gInvalidSession = Some sentinel
                       ∧ heap st !! sentinel = Some r0 ∧ mId r0 = 0
}.

(** ** Example programs and states *)

(** Printers: a key prints as [K<id>], a certificate as [C<id>], a time as
    [t<seconds>] followed by a newline. *)
Definition demoP : Printers :=
  mkPrinters (λ t, "t" +:+ pretty t +:+ endl)
             (λ k, "K" +:+ pretty k) (λ c, "C" +:+ pretty c).

Definition battr : EncryptAttributes :=
  mkEncryptAttributes ENCRYPT_BLOWFISH true true false.

(** A session created with key 5 and certificate 6, then copied once:
    handles 1 and 2 share the record at address 2. *)
Definition shared_program : list op :=
  [ OpCreate battr (Some 5%positive) (Some 6%positive) 0 100; OpCopy 1%nat ].

Definition shared_record : SessionData :=
  mkSessionData 2 1 false battr (Some 5%positive) (Some 6%positive) 100 0 0 0 0 0.

Definition shared_state : State :=
  mkState {[ sentinel := set_mId 0 SessionData_new; 2%positive := shared_record ]}
          [Some sentinel; Some 2%positive; Some 2%positive] 2 [].

(** A session created with a certificate and no key. *)
Definition certonly_program : list op :=
  [ OpCreate battr None (Some 6%positive) 0 100 ].

Definition certonly_state : State :=
  mkState {[ sentinel := set_mId 0 SessionData_new;
             2%positive := mkSessionData 1 1 false battr None (Some 6%positive)
                             100 0 0 0 0 0 ]}
          [Some sentinel; Some 2%positive] 2 [].

(** Both sequence numbers of the sentinel record driven to the top of the
    16-bit range through [gInvalidSession]. *)
Definition maxed_program : list op :=
  [ OpTestSetRecvSeq gInvalidSession USHRT_MAX false;
    OpTestSetSendSeq gInvalidSession USHRT_MAX false ].

Definition maxed_state : State :=
  store sentinel (set_mSendSeq USHRT_MAX (set_mRecvSeq USHRT_MAX (set_mId 0 SessionData_new)))
    initial_state.

(** A session created with key 5 and certificate 6, re-initialised in place
    with key 7 and certificate 8, then destroyed. *)
Definition leak_program : list op :=
  [ OpCreate battr (Some 5%positive) (Some 6%positive) 0 100;
    OpInit 1%nat battr (Some 7%positive) (Some 8%positive) 0 200;
    OpDestroy 1%nat ].

(** ** Vocabulary for the handle table *)

(** The handle a call may rebind or destroy: its own [this], for the
    destructor, the assignment operator and [Init]. *)
Definition target (o : op) : option handle :=
  match o with
  | OpDestroy h | OpAssign h _ | OpInit h _ _ _ _ _ => Some h
  | _ => None
  end.

(** ** Further example states *)

(** [shared_state] after handle 1 was re-initialised as a remote session
    with identifier 9: it now has the record at address 3 to itself. *)
Definition detached_state : State :=
  mkState {[ sentinel := set_mId 0 SessionData_new;
             2%positive := set_mRefCt 1 shared_record;
             3%positive := mkSessionData 1 9 true battr None None 200 0 0 0 0 0 ]}
          [Some sentinel; Some 3%positive; Some 2%positive] 2 [].

(** ** Vocabulary for runs *)

(** Local sessions constructed one after the other, each with its own
    attributes, key, certificate and clock reading: the handles made, in
    order, and the state afterwards. *)
Fixpoint create_local
    (args : list (EncryptAttributes * option keyid * option certid * Z))
    (st : State) : option (list handle * State) :=
  match args with
  | [] => Some ([], st)
  | (theAttr, theKeyP, theCertP, now) :: rest =>
      '(h, st1) ← Session_init theAttr theKeyP theCertP 0 now st;
      '(hs, st2) ← create_local rest st1;
      Some (h :: hs, st2)
  end.

(** The identifier read through a handle. *)
Definition id_of (st : State) (h : handle) : option Z := mId <$> deref st h.

(** What may happen to a record while a handle on it is kept: the fields
    fixed by [Init] stay, the sequence numbers do not go down. *)
Definition evolves (r r' : SessionData) : Prop :=
  mId r' = mId r ∧ mIsRemote r' = mIsRemote r
  ∧ mEncryptAttr r' = mEncryptAttr r
  ∧ mKeyP r' = mKeyP r ∧ mCertP r' = mCertP r
  ∧ mRecvSeq r ≤ mRecvSeq r' ∧ mSendSeq r ≤ mSendSeq r'.

(** A program that never destroys, assigns to or re-initialises [h]. *)
Definition untouched (h : handle) (os : list op) : Prop :=
  Forall (λ o, target o ≠ Some h) os.

(** The test-and-set of one direction: receive or send. *)
Definition TestSetSeq (recv : bool) :
    Z → bool → handle → State → option (bool * State) :=
  if recv then TestSetRecvSeq else TestSetSendSeq.

(** [shared_state] after handle 1 accepted receive sequence number 5 on an
    unreliable channel, and what a copy of the handle and a later packet 7
    through handle 2 make of it. *)
Definition accepted_state : State :=
  store 2%positive (set_mRecvSeq 5 shared_record) shared_state.

Definition later_program : list op :=
  [ OpCopy 1%nat; OpTestSetRecvSeq 2%nat 7 false; OpTouch 3%nat 300 ].

Definition later_state : State :=
  mkState {[ sentinel := set_mId 0 SessionData_new;
             2%positive := mkSessionData 3 1 false battr (Some 5%positive)
                             (Some 6%positive) 300 7 0 0 0 0 ]}
          [Some sentinel; Some 2%positive; Some 2%positive; Some 2%positive] 2 [].

(** The handles a call reads or writes. *)
Definition uses (o : op) : list handle :=
  match o with
  | OpDefault | OpCreate _ _ _ _ _ | OpSearchKey _ => []
  | OpCopy h | OpDestroy h | OpIsValid h | OpInit h _ _ _ _ _ | OpTouch h _
  | OpTestSetRecvSeq h _ _ | OpTestSetSendSeq h _ _ | OpDump h _ => [h]
  | OpAssign h theSessR => [h; theSessR]
  end.

Definition is_dump (o : op) : bool :=
  match o with OpDump _ _ => true | _ => false end.

(** ** Vocabulary for ownership *)

(** The objects a record points to, those its destructor deletes. *)
Definition owned_by (r : SessionData) : list object :=
  delete_key (mKeyP r) ++ delete_cert (mCertP r).

(** The objects the records of a heap point to, record by record. *)
Definition owned (hp : gmap positive SessionData) : list object :=
  map_to_list hp ≫= (λ ar, owned_by ar.2).

(** The objects a call hands over to a session. *)
Definition given (o : op) : list object :=
  match o with
  | OpCreate _ theKeyP theCertP _ _ | OpInit _ _ theKeyP theCertP _ _ =>
      delete_key theKeyP ++ delete_cert theCertP
  | _ => []
  end.

(** Two sessions, each created with a key and a certificate of its own;
    the first re-initialised with a new pair; all handles destroyed. *)
Definition two_sessions_program : list op :=
  [ OpCreate battr (Some 5%positive) (Some 6%positive) 0 100;
    OpCreate battr (Some 15%positive) (Some 16%positive) 0 110;
    OpCopy 1%nat;
    OpInit 1%nat battr (Some 7%positive) (Some 8%positive) 0 200;
    OpDestroy 3%nat; OpDestroy 2%nat; OpDestroy 1%nat ].

Definition two_sessions_end : State :=
  mkState {[ sentinel := set_mId 0 SessionData_new ]}
          [Some sentinel; None; None; None] 4
          [ KeyObj 5%positive; CertObj 6%positive;
            KeyObj 15%positive; CertObj 16%positive;
            KeyObj 7%positive; CertObj 8%positive ].

(** The objects a call drops without releasing them: what the record of an
    unshared handle points to when [Init] overwrites [mKeyP] and [mCertP]. *)
Definition loses (st : State) (o : op) : list object :=
  match o with
  | OpInit h _ _ _ _ _ =>
      match deref st h with
      | Some r => if 1 <? mRefCt r then [] else owned_by r
      | None => []
      end
  | _ => []
  end.

(** The same over a program, call by call. *)
Fixpoint lost_by (P : Printers) (st : State) (os : list op) : list object :=
  match os with
  | [] => []
  | o :: os' =>
      loses st o ++
      match run P st o with
      | Some (_, st1) => lost_by P st1 os'
      | None => []
      end
  end.

(** ** Vocabulary for what a call leaves alone *)

(** [r'] is [r] in every field but the receive sequence number. *)
Definition same_except_recv (r r' : SessionData) : Prop :=
  mRefCt r' = mRefCt r ∧ mId r' = mId r ∧ mIsRemote r' = mIsRemote r
  ∧ mEncryptAttr r' = mEncryptAttr r ∧ mKeyP r' = mKeyP r ∧ mCertP r' = mCertP r
  ∧ mLastAction r' = mLastAction r ∧ mSendSeq r' = mSendSeq r
  ∧ mRecvCt r' = mRecvCt r ∧ mSendCt r' = mSendCt r ∧ mProcCt r' = mProcCt r.

(** [r'] is [r] in every field but the send sequence number. *)
Definition same_except_send (r r' : SessionData) : Prop :=
  mRefCt r' = mRefCt r ∧ mId r' = mId r ∧ mIsRemote r' = mIsRemote r
  ∧ mEncryptAttr r' = mEncryptAttr r ∧ mKeyP r' = mKeyP r ∧ mCertP r' = mCertP r
  ∧ mLastAction r' = mLastAction r ∧ mRecvSeq r' = mRecvSeq r
  ∧ mRecvCt r' = mRecvCt r ∧ mSendCt r' = mSendCt r ∧ mProcCt r' = mProcCt r.

(** [r'] is [r] in every field but the reference count. *)
Definition same_except_count (r r' : SessionData) : Prop :=
  mId r' = mId r ∧ mIsRemote r' = mIsRemote r
  ∧ mEncryptAttr r' = mEncryptAttr r ∧ mKeyP r' = mKeyP r ∧ mCertP r' = mCertP r
  ∧ mLastAction r' = mLastAction r
  ∧ mRecvSeq r' = mRecvSeq r ∧ mSendSeq r' = mSendSeq r
  ∧ mRecvCt r' = mRecvCt r ∧ mSendCt r' = mSendCt r ∧ mProcCt r' = mProcCt r.

(** Two states that differ at most in the record at [a]. *)
Definition same_elsewhere (a : addr) (st st' : State) : Prop :=
  (∀ b, b ≠ a → heap st' !! b = heap st !! b)
  ∧ handles st' = handles st
  ∧ gNextSessionId st' = gNextSessionId st
  ∧ released st' = released st.

(** The initial state after one [Session()]: handle 1 shares the sentinel
    record with [gInvalidSession]. *)
Definition defaulted_state : State :=
  mkState {[ sentinel := set_mRefCt 2 (set_mId 0 SessionData_new) ]}
          [Some sentinel; Some sentinel] 1 [].

(** * Properties *)

(** ** Sequence test-and-set *)

Lemma mRefP_deref st h a r :
  mRefP st h = Some a → heap st !! a = Some r → deref st h = Some r.
Proof. intros Ha Hr. unfold deref. rewrite Ha. exact Hr. Qed.

Lemma accepts_recv_test isReliable stored seq :
  accepts isReliable stored seq ↔
  (if isReliable then stored + 1 =? seq else stored <? seq) = true.
Proof.
  unfold accepts. destruct isReliable.
  - rewrite Z.eqb_eq. split; intros; lia.
  - rewrite Z.ltb_lt. reflexivity.
Qed.

(** C1: on a live handle, [TestSetRecvSeq] and [TestSetSendSeq] return
    [true] iff the acceptance rule holds between the stored sequence number
    and [theSeq] (exact successor when reliable, strictly greater when not).
    The number then read through the handle is [theSeq] exactly when the
    call returned [true], and the old number when it returned [false]; every
    other field of the record, every other record, the handle table, the
    generator and the release log are as before, and on [false] the whole
    state is. *)
Theorem TestSetSeq_acceptance st h a r theSeq isReliable :
  mRefP st h = Some a → heap st !! a = Some r →
  (∃ (b : bool) st' r',
     TestSetRecvSeq theSeq isReliable h st = Some (b, st')
     ∧ (b = true ↔ accepts isReliable (mRecvSeq r) theSeq)
     ∧ mRefP st' h = Some a ∧ deref st' h = Some r'
     ∧ mRecvSeq r' = (if b then theSeq else mRecvSeq r)
     ∧ same_except_recv r r'
     ∧ same_elsewhere a st st'
     ∧ (b = false → st' = st))
  ∧
  (∃ (b : bool) st' r',
     TestSetSendSeq theSeq isReliable h st = Some (b, st')
     ∧ (b = true ↔ accepts isReliable (mSendSeq r) theSeq)
     ∧ mRefP st' h = Some a ∧ deref st' h = Some r'
     ∧ mSendSeq r' = (if b then theSeq else mSendSeq r)
     ∧ same_except_send r r'
     ∧ same_elsewhere a st st'
     ∧ (b = false → st' = st)).
Proof.
  intros Ha Hr.
  assert (Hsame : ∀ r', same_elsewhere a st (store a r' st)).
  { intros r'. split; [|repeat split].
    intros b Hb. cbn. apply lookup_insert_ne. congruence. }
  assert (Hrefl : same_elsewhere a st st) by (repeat split).
  assert (Hread : ∀ r', deref (store a r' st) h = Some r').
  { intros r'. apply (mRefP_deref _ h a); [exact Ha|]. cbn. apply lookup_insert_eq. }
  split.
  - unfold TestSetRecvSeq. rewrite Ha. cbn [mbind option_bind]. rewrite Hr.
    cbn [mbind option_bind].
    pose proof (accepts_recv_test isReliable (mRecvSeq r) theSeq) as Hacc.
    destruct (if isReliable then mRecvSeq r + 1 =? theSeq else mRecvSeq r <? theSeq).
    + exists true, (store a (set_mRecvSeq theSeq r) st), (set_mRecvSeq theSeq r).
      split; [reflexivity|]. split; [symmetry; exact Hacc|].
      split; [exact Ha|]. split; [apply Hread|]. split; [reflexivity|].
      split; [repeat split|]. split; [apply Hsame|discriminate].
    + exists false, st, r.
      split; [reflexivity|]. split; [symmetry; exact Hacc|].
      split; [exact Ha|]. split; [apply (mRefP_deref st h a r Ha Hr)|].
      split; [reflexivity|]. split; [repeat split|]. split; [exact Hrefl|reflexivity].
  - unfold TestSetSendSeq. rewrite Ha. cbn [mbind option_bind]. rewrite Hr.
    cbn [mbind option_bind].
    pose proof (accepts_recv_test isReliable (mSendSeq r) theSeq) as Hacc.
    destruct (if isReliable then mSendSeq r + 1 =? theSeq else mSendSeq r <? theSeq).
    + exists true, (store a (set_mSendSeq theSeq r) st), (set_mSendSeq theSeq r).
      split; [reflexivity|]. split; [symmetry; exact Hacc|].
      split; [exact Ha|]. split; [apply Hread|]. split; [reflexivity|].
      split; [repeat split|]. split; [apply Hsame|discriminate].
    + exists false, st, r.
      split; [reflexivity|]. split; [symmetry; exact Hacc|].
      split; [exact Ha|]. split; [apply (mRefP_deref st h a r Ha Hr)|].
      split; [reflexivity|]. split; [repeat split|]. split; [exact Hrefl|reflexivity].
Qed.

Lemma TestSetSeq_acceptance_witness :
  (∃ (b : bool) st' r',
     TestSetRecvSeq 1 true 1%nat shared_state = Some (b, st')
     ∧ (b = true ↔ accepts true (mRecvSeq shared_record) 1)
     ∧ mRefP st' 1%nat = Some 2%positive ∧ deref st' 1%nat = Some r'
     ∧ mRecvSeq r' = (if b then 1 else mRecvSeq shared_record)
     ∧ same_except_recv shared_record r'
     ∧ same_elsewhere 2%positive shared_state st'
     ∧ (b = false → st' = shared_state))
  ∧
  (∃ (b : bool) st' r',
     TestSetSendSeq 1 true 1%nat shared_state = Some (b, st')
     ∧ (b = true ↔ accepts true (mSendSeq shared_record) 1)
     ∧ mRefP st' 1%nat = Some 2%positive ∧ deref st' 1%nat = Some r'
     ∧ mSendSeq r' = (if b then 1 else mSendSeq shared_record)
     ∧ same_except_send shared_record r'
     ∧ same_elsewhere 2%positive shared_state st'
     ∧ (b = false → st' = shared_state)).
Proof.
  apply (TestSetSeq_acceptance shared_state 1%nat 2%positive shared_record 1 true);
    reflexivity.
Defined.

(** C10: once the stored sequence number of a direction is 65535, a
    reliable test-and-set in that direction rejects every 16-bit [theSeq],
    0 included, and leaves the state as it was: [stored + 1] is computed
    after integral promotion and is 65536. *)
Theorem TestSetSeq_reliable_stuck_at_max st h a r theSeq :
  mRefP st h = Some a → heap st !! a = Some r → is_ushort theSeq →
  (mRecvSeq r = USHRT_MAX → TestSetRecvSeq theSeq true h st = Some (false, st))
  ∧ (mSendSeq r = USHRT_MAX → TestSetSendSeq theSeq true h st = Some (false, st)).
Proof.
  unfold is_ushort, USHRT_MAX. intros Ha Hr Hs. split; intros Hmax.
  - unfold TestSetRecvSeq. rewrite Ha. simpl. rewrite Hr. simpl.
    destruct (Z.eqb_spec (mRecvSeq r + 1) theSeq) as [E|E]; [lia|reflexivity].
  - unfold TestSetSendSeq. rewrite Ha. simpl. rewrite Hr. simpl.
    destruct (Z.eqb_spec (mSendSeq r + 1) theSeq) as [E|E]; [lia|reflexivity].
Qed.

Lemma TestSetSeq_reliable_stuck_at_max_witness :
  TestSetRecvSeq 0 true gInvalidSession maxed_state = Some (false, maxed_state)
  ∧ TestSetSendSeq 0 true gInvalidSession maxed_state = Some (false, maxed_state).
Proof.
  pose proof (TestSetSeq_reliable_stuck_at_max maxed_state gInvalidSession sentinel
           (set_mSendSeq USHRT_MAX (set_mRecvSeq USHRT_MAX (set_mId 0 SessionData_new))) 0
           eq_refl eq_refl ltac:(unfold is_ushort, USHRT_MAX; lia)) as [H1 H2].
  split; [apply H1|apply H2]; reflexivity.
Defined.

(** ** Validity *)

(** C2: on a live handle [IsValid] returns [false] when the identifier is 0;
    otherwise [true] when the mode is [ENCRYPT_NONE], and for any other mode
    [true] iff key and certificate are both present. *)
Theorem IsValid_spec st h r :
  deref st h = Some r →
  ∃ b, IsValid st h = Some b
    ∧ (mId r = 0 → b = false)
    ∧ (mId r ≠ 0 → mEncryptMode (mEncryptAttr r) = ENCRYPT_NONE → b = true)
    ∧ (mId r ≠ 0 → mEncryptMode (mEncryptAttr r) ≠ ENCRYPT_NONE →
       (b = true ↔ is_Some (mKeyP r) ∧ is_Some (mCertP r))).
Proof.
  intros Hr. unfold IsValid. rewrite Hr. simpl.
  destruct (Z.eqb_spec (mId r) 0) as [E|E].
  - eexists. split; [reflexivity|]. repeat split; intros; congruence.
  - eexists. split; [reflexivity|]. split; [congruence|].
    split.
    + intros _ Hm. rewrite decide_False; [reflexivity|]. intros Hn. apply Hn, Hm.
    + intros _ Hm. rewrite decide_True by exact Hm.
      rewrite andb_true_iff, !bool_decide_eq_true. reflexivity.
Qed.

Lemma IsValid_spec_witness :
  ∃ b, IsValid initial_state gInvalidSession = Some b
    ∧ (0 = 0 → b = false)
    ∧ (0 ≠ 0 → ENCRYPT_NONE = ENCRYPT_NONE → b = true)
    ∧ (0 ≠ 0 → ENCRYPT_NONE ≠ ENCRYPT_NONE →
       (b = true ↔ is_Some (@None keyid) ∧ is_Some (@None certid))).
Proof.
  apply (IsValid_spec initial_state gInvalidSession (set_mId 0 SessionData_new)).
  reflexivity.
Defined.

(** ** The identifier generator *)

Lemma next_id_spec g :
  1 ≤ g ≤ USHRT_MAX → next_id g = (g, nth_id g 1).
Proof.
  unfold USHRT_MAX, next_id, nth_id, to_ushort, USHRT_MAX. intros Hg.
  f_equal.
  destruct (Z.eq_dec g 65535) as [->|Hne]; [reflexivity|].
  rewrite (Z.mod_small (g + 1)) by lia.
  destruct (Z.eqb_spec (g + 1) 0) as [E|E]; [lia|].
  rewrite Z.mod_small by lia. lia.
Qed.

Lemma nth_id_range g k : 1 ≤ nth_id g k ≤ USHRT_MAX.
Proof.
  unfold nth_id, USHRT_MAX.
  pose proof (Z.mod_pos_bound (g - 1 + k) 65535 ltac:(lia)). lia.
Qed.

Lemma nth_id_0 g : 1 ≤ g ≤ USHRT_MAX → nth_id g 0 = g.
Proof.
  unfold nth_id, USHRT_MAX. intros Hg.
  rewrite Z.add_0_r, Z.mod_small by lia. lia.
Qed.

Lemma nth_id_shift g k : nth_id (nth_id g 1) k = nth_id g (k + 1).
Proof.
  unfold nth_id, USHRT_MAX.
  replace ((g - 1 + 1) mod 65535 + 1 - 1 + k) with ((g - 1 + 1) mod 65535 + k) by lia.
  rewrite Zplus_mod_idemp_l. f_equal. f_equal. lia.
Qed.

Lemma nth_id_period g k : nth_id g (k + USHRT_MAX) = nth_id g k.
Proof.
  unfold nth_id, USHRT_MAX.
  replace (g - 1 + (k + 65535)) with (g - 1 + k + 1 * 65535) by lia.
  rewrite Z.mod_add by lia. reflexivity.
Qed.

Lemma nth_id_inj g j k :
  0 ≤ j < USHRT_MAX → 0 ≤ k < USHRT_MAX → nth_id g j = nth_id g k → j = k.
Proof.
  unfold nth_id, USHRT_MAX. intros Hj Hk E.
  pose proof (Z.div_mod (g - 1 + j) 65535 ltac:(lia)) as Dj.
  pose proof (Z.div_mod (g - 1 + k) 65535 ltac:(lia)) as Dk.
  lia.
Qed.

Lemma generate_closed_form n : ∀ st,
  1 ≤ gNextSessionId st ≤ USHRT_MAX →
  generate n st =
    ((λ k : nat, nth_id (gNextSessionId st) (Z.of_nat k)) <$> seq 0 n,
     set_gNextSessionId (nth_id (gNextSessionId st) (Z.of_nat n)) st).
Proof.
  induction n as [|n IH]; intros st Hg.
  - simpl. rewrite nth_id_0 by exact Hg. destruct st; reflexivity.
  - cbn [generate]. unfold GetNextSessionId.
    rewrite next_id_spec by exact Hg.
    rewrite IH by (cbn; apply nth_id_range). cbn [gNextSessionId set_gNextSessionId].
    cbn [seq fmap list_fmap]. rewrite nth_id_0 by exact Hg.
    f_equal.
    + f_equal. rewrite <- fmap_S_seq, <- list_fmap_compose.
      apply list_fmap_ext. intros _ k _. cbn.
      rewrite nth_id_shift. f_equal. lia.
    + rewrite nth_id_shift. unfold set_gNextSessionId. cbn. f_equal. f_equal. lia.
Qed.

Lemma of_nat_period : Z.of_nat period = USHRT_MAX.
Proof. unfold period. apply Z2Nat.id. unfold USHRT_MAX. lia. Qed.

(** C4: from a counter in 1..65535 (it starts at 1), the generator never
    returns 0; the identifiers returned by the first [n ≤ 65535] calls are
    pairwise distinct; and after exactly 65535 calls the counter is back at
    its starting value, so call [k + 65535] returns what call [k] did. *)
Theorem GetNextSessionId_sequence st :
  1 ≤ gNextSessionId st ≤ USHRT_MAX →
  (∀ n, Forall (λ i, i ≠ 0) (generate n st).1)
  ∧ (∀ n, (n ≤ period)%nat → NoDup (generate n st).1)
  ∧ (generate period st).2 = st
  ∧ (∀ n k, (k + period < n)%nat →
       (generate n st).1 !! (k + period)%nat = (generate n st).1 !! k).
Proof.
  intros Hg. pose proof of_nat_period as Hp. repeat split.
  - intros n. rewrite generate_closed_form by exact Hg. cbn [fst].
    apply Forall_fmap, Forall_forall. intros k _. cbn.
    pose proof (nth_id_range (gNextSessionId st) (Z.of_nat k)). lia.
  - intros n Hn. rewrite generate_closed_form by exact Hg. cbn [fst].
    apply NoDup_fmap_2_strong; [|apply NoDup_seq].
    intros j k Hj%elem_of_seq Hk%elem_of_seq E.
    apply Nat2Z.inj, (nth_id_inj (gNextSessionId st)); [lia..|exact E].
  - rewrite generate_closed_form by exact Hg. cbn [snd].
    rewrite Hp. replace USHRT_MAX with (0 + USHRT_MAX) at 1 by lia.
    rewrite nth_id_period, nth_id_0 by exact Hg. destruct st; reflexivity.
  - intros n k Hk. rewrite generate_closed_form by exact Hg. cbn [fst].
    rewrite !list_lookup_fmap, !lookup_seq_lt by lia. cbn. f_equal.
    rewrite Nat2Z.inj_add, Hp. apply nth_id_period.
Qed.

Lemma GetNextSessionId_sequence_witness :
  (∀ n, Forall (λ i, i ≠ 0) (generate n initial_state).1)
  ∧ (∀ n, (n ≤ period)%nat → NoDup (generate n initial_state).1)
  ∧ (generate period initial_state).2 = initial_state
  ∧ (∀ n k, (k + period < n)%nat →
       (generate n initial_state).1 !! (k + period)%nat
       = (generate n initial_state).1 !! k).
Proof.
  apply (GetNextSessionId_sequence initial_state).
  unfold USHRT_MAX. simpl. lia.
Defined.

(** ** Counting handles *)

Lemma refs_nonneg a hs : 0 ≤ refs a hs.
Proof. induction hs as [|x hs IH]; simpl; [lia|]. case_decide; lia. Qed.

Lemma refs_app a hs hs' : refs a (hs ++ hs') = refs a hs + refs a hs'.
Proof. induction hs as [|x hs IH]; simpl; [lia|]. rewrite IH. lia. Qed.

Lemma refs_snoc_eq a hs : refs a (hs ++ [Some a]) = refs a hs + 1.
Proof. rewrite refs_app. simpl. rewrite decide_True by reflexivity. lia. Qed.

Lemma refs_snoc_ne a b hs : a ≠ b → refs a (hs ++ [Some b]) = refs a hs.
Proof.
  intros Hne. rewrite refs_app. simpl.
  rewrite decide_False by congruence. lia.
Qed.

Lemma refs_insert a hs : ∀ h x y,
  hs !! h = Some x →
  refs a (<[h := y]> hs)
  = refs a hs - (if decide (x = Some a) then 1 else 0)
    + (if decide (y = Some a) then 1 else 0).
Proof.
  induction hs as [|z hs IH]; intros [|h] x y Hx; simpl in *; try discriminate.
  - injection Hx as ->. repeat case_decide; try congruence; lia.
  - rewrite (IH _ _ _ Hx). repeat case_decide; try congruence; lia.
Qed.

Lemma refs_lookup a hs h : hs !! h = Some (Some a) → 1 ≤ refs a hs.
Proof.
  revert h. induction hs as [|z hs IH]; intros [|h] Hh; simpl in *; try discriminate.
  - injection Hh as ->. rewrite decide_True by reflexivity.
    pose proof (refs_nonneg a hs). lia.
  - specialize (IH _ Hh). case_decide; lia.
Qed.

Lemma refs_lookup2 a hs h h' :
  h ≠ h' → hs !! h = Some (Some a) → hs !! h' = Some (Some a) → 2 ≤ refs a hs.
Proof.
  revert h h'. induction hs as [|z hs IH]; intros [|h] [|h'] Hne H1 H2;
    simpl in *; try discriminate; try congruence.
  - injection H1 as ->. rewrite decide_True by reflexivity.
    pose proof (refs_lookup _ _ _ H2). lia.
  - injection H2 as ->. rewrite decide_True by reflexivity.
    pose proof (refs_lookup _ _ _ H1). lia.
  - assert (h ≠ h') by congruence. specialize (IH _ _ H H1 H2). case_decide; lia.
Qed.

(** ** The heap *)

Lemma mRefP_Some st h a : mRefP st h = Some a ↔ handles st !! h = Some (Some a).
Proof.
  unfold mRefP. destruct (handles st !! h) as [[b|]|]; simpl; split; congruence.
Qed.

Lemma refcount_at_insert hp a r b :
  refcount_at (<[a := r]> hp) b = if decide (a = b) then mRefCt r else refcount_at hp b.
Proof. unfold refcount_at. rewrite lookup_insert. case_decide; reflexivity. Qed.

Lemma refcount_at_delete hp a b :
  refcount_at (delete a hp) b = if decide (a = b) then 0 else refcount_at hp b.
Proof. unfold refcount_at. rewrite lookup_delete. case_decide; reflexivity. Qed.

Lemma fresh_not_live (hp : gmap positive SessionData) : hp !! fresh (dom hp) = None.
Proof. apply not_elem_of_dom, is_fresh. Qed.

Lemma dom_overwrite (hp : gmap positive SessionData) a r r' :
  hp !! a = Some r → dom (<[a := r']> hp) = dom hp.
Proof.
  intros Hr. rewrite dom_insert_L.
  assert (Ha : a ∈ dom hp) by (apply elem_of_dom; eauto).
  apply subseteq_union_1_L, singleton_subseteq_l, Ha.
Qed.

Lemma Inv_live st h a : Inv st → mRefP st h = Some a → is_Some (heap st !! a).
Proof.
  intros HI Hh%mRefP_Some. pose proof (inv_count st HI a) as Hc.
  pose proof (refs_lookup _ _ _ Hh). unfold refcount_at in Hc.
  destruct (heap st !! a); [eauto|lia].
Qed.

(** ** What each method does to the state *)

Lemma Init_shared theAttr theKeyP theCertP theId now h st a0 r0 :
  mRefP st h = Some a0 → heap st !! a0 = Some r0 → 1 < mRefCt r0 →
  Init theAttr theKeyP theCertP theId now h st =
    Some (mkState
            (<[fresh (dom (heap st)) :=
                 init_record theAttr theKeyP theCertP theId now (gNextSessionId st)
                   SessionData_new]>
               (<[a0 := set_mRefCt (mRefCt r0 - 1) r0]> (heap st)))
            (<[h := Some (fresh (dom (heap st)))]> (handles st))
            (init_counter theId (gNextSessionId st))
            (released st)).
Proof.
  intros Hh Hr Hc. unfold Init. rewrite Hh. cbn [mbind option_bind].
  rewrite Hr. cbn [mbind option_bind].
  destruct (Z.ltb_spec 1 (mRefCt r0)) as [_|?]; [|lia].
  unfold release. rewrite Hr. cbn [mbind option_bind].
  destruct (Z.leb_spec (mRefCt r0 - 1) 0) as [?|_]; [lia|].
  cbn [mbind option_bind]. unfold new_SessionData, store, set_heap, set_handles.
  cbn [heap handles gNextSessionId released].
  rewrite (dom_overwrite _ _ _ _ Hr).
  set (a' := fresh (dom (heap st))).
  assert (Hlt : (h < length (handles st))%nat).
  { apply mRefP_Some in Hh. eapply lookup_lt_Some, Hh. }
  cbn [mbind option_bind]. unfold mRefP at 1. cbn [handles].
  rewrite list_lookup_insert_eq by exact Hlt. cbn [mbind option_bind id].
  cbn [heap]. rewrite lookup_insert_eq. cbn [mbind option_bind].
  unfold init_counter, init_record, Touch, GetNextSessionId, next_id, mRefP.
  destruct (0 <? theId); cbn; rewrite list_lookup_insert_eq by exact Hlt; cbn;
    rewrite lookup_insert_eq; cbn; unfold store, set_heap; cbn;
    rewrite !insert_insert_eq; reflexivity.
Qed.

Lemma Init_exclusive theAttr theKeyP theCertP theId now h st a0 r0 :
  mRefP st h = Some a0 → heap st !! a0 = Some r0 → mRefCt r0 ≤ 1 →
  Init theAttr theKeyP theCertP theId now h st =
    Some (mkState
            (<[a0 := init_record theAttr theKeyP theCertP theId now (gNextSessionId st) r0]>
               (heap st))
            (handles st)
            (init_counter theId (gNextSessionId st))
            (released st)).
Proof.
  intros Hh Hr Hc. unfold Init. rewrite Hh. cbn [mbind option_bind].
  rewrite Hr. cbn [mbind option_bind].
  destruct (Z.ltb_spec 1 (mRefCt r0)) as [?|_]; [lia|].
  cbn [mbind option_bind]. rewrite Hh. cbn [mbind option_bind].
  rewrite Hr. cbn [mbind option_bind].
  unfold init_counter, init_record, Touch, GetNextSessionId, next_id, mRefP in *.
  destruct (0 <? theId); cbn; rewrite Hh; cbn;
    rewrite lookup_insert_eq; cbn; unfold store, set_heap; cbn;
    rewrite !insert_insert_eq; reflexivity.
Qed.

Lemma Session_default_spec st a r :
  mRefP st gInvalidSession = Some a → heap st !! a = Some r →
  Session_default st =
    Some (length (handles st),
          mkState (<[a := set_mRefCt (mRefCt r + 1) r]> (heap st))
                  (handles st ++ [Some a]) (gNextSessionId st) (released st)).
Proof.
  intros Ha Hr. unfold Session_default, InterlockedIncrement.
  rewrite Ha. cbn. rewrite Hr. reflexivity.
Qed.

Lemma Session_copy_spec st theSessR a r :
  mRefP st theSessR = Some a → heap st !! a = Some r →
  Session_copy theSessR st =
    Some (length (handles st),
          mkState (<[a := set_mRefCt (mRefCt r + 1) r]> (heap st))
                  (handles st ++ [Some a]) (gNextSessionId st) (released st)).
Proof.
  intros Ha Hr. unfold Session_copy, InterlockedIncrement.
  rewrite Ha. cbn. rewrite Hr. reflexivity.
Qed.

Lemma Session_id_spec st theId :
  Session_id theId st =
    Some (length (handles st),
          mkState (<[fresh (dom (heap st)) := set_mId theId SessionData_new]> (heap st))
                  (handles st ++ [Some (fresh (dom (heap st)))])
                  (gNextSessionId st) (released st)).
Proof.
  unfold Session_id, new_SessionData, store, set_heap, set_handles. cbn.
  rewrite lookup_insert_eq. cbn. rewrite insert_insert_eq. reflexivity.
Qed.

Lemma Session_init_spec theAttr theKeyP theCertP theId now st :
  Session_init theAttr theKeyP theCertP theId now st =
    Some (length (handles st),
          mkState (<[fresh (dom (heap st)) :=
                       init_record theAttr theKeyP theCertP theId now
                         (gNextSessionId st) SessionData_new]> (heap st))
                  (handles st ++ [Some (fresh (dom (heap st)))])
                  (init_counter theId (gNextSessionId st)) (released st)).
Proof.
  unfold Session_init, new_SessionData, store, set_heap, set_handles. cbn.
  erewrite Init_exclusive.
  - cbn. rewrite insert_insert_eq. reflexivity.
  - unfold mRefP. cbn. rewrite list_lookup_middle by reflexivity. reflexivity.
  - cbn. apply lookup_insert_eq.
  - cbn. lia.
Qed.

Lemma Session_destroy_spec st h a r :
  mRefP st h = Some a → heap st !! a = Some r →
  Session_destroy h st =
    Some (if mRefCt r - 1 <=? 0
          then mkState (delete a (heap st)) (<[h := None]> (handles st))
                 (gNextSessionId st)
                 (released st ++ delete_key (mKeyP r) ++ delete_cert (mCertP r))
          else mkState (<[a := set_mRefCt (mRefCt r - 1) r]> (heap st))
                 (<[h := None]> (handles st)) (gNextSessionId st) (released st)).
Proof.
  intros Ha Hr. unfold Session_destroy, release, delete_SessionData.
  rewrite Ha. cbn. rewrite Hr. cbn.
  destruct (mRefCt r - 1 <=? 0); cbn.
  - rewrite lookup_insert_eq. cbn. unfold set_handles, set_released, set_heap. cbn.
    rewrite delete_insert_eq. reflexivity.
  - reflexivity.
Qed.

Lemma Session_assign_same st h theSessR a :
  mRefP st h = Some a → mRefP st theSessR = Some a →
  Session_assign h theSessR st = Some st.
Proof.
  intros Ha Hb. unfold Session_assign. rewrite Ha, Hb. cbn.
  rewrite decide_False; [reflexivity|]. intros Hn. apply Hn. reflexivity.
Qed.

Lemma Session_assign_spec st h theSessR a b ra rb :
  mRefP st h = Some a → mRefP st theSessR = Some b → a ≠ b →
  heap st !! a = Some ra → heap st !! b = Some rb →
  Session_assign h theSessR st =
    Some (if mRefCt ra - 1 <=? 0
          then mkState (delete a (<[b := set_mRefCt (mRefCt rb + 1) rb]> (heap st)))
                 (<[h := Some b]> (handles st)) (gNextSessionId st)
                 (released st ++ delete_key (mKeyP ra) ++ delete_cert (mCertP ra))
          else mkState (<[a := set_mRefCt (mRefCt ra - 1) ra]>
                          (<[b := set_mRefCt (mRefCt rb + 1) rb]> (heap st)))
                 (<[h := Some b]> (handles st)) (gNextSessionId st) (released st)).
Proof.
  intros Ha Hb Hne Hra Hrb.
  unfold Session_assign, InterlockedIncrement, release, delete_SessionData.
  rewrite Ha, Hb. cbn. rewrite decide_True by exact Hne.
  rewrite Hrb. cbn. rewrite lookup_insert_ne by congruence. rewrite Hra. cbn.
  destruct (mRefCt ra - 1 <=? 0); cbn.
  - rewrite lookup_insert_eq. cbn. unfold set_handles, set_released, set_heap. cbn.
    rewrite delete_insert_eq. reflexivity.
  - reflexivity.
Qed.

Lemma Touch_spec now st h a r :
  mRefP st h = Some a → heap st !! a = Some r →
  Touch now h st =
    Some (mkState (<[a := set_mLastAction now r]> (heap st))
                  (handles st) (gNextSessionId st) (released st)).
Proof. intros Ha Hr. unfold Touch. rewrite Ha. cbn. rewrite Hr. reflexivity. Qed.

Lemma TestSetRecvSeq_spec theSeq isReliable st h a r :
  mRefP st h = Some a → heap st !! a = Some r →
  TestSetRecvSeq theSeq isReliable h st =
    let aRet := if isReliable then mRecvSeq r + 1 =? theSeq else mRecvSeq r <? theSeq in
    Some (aRet, if aRet then store a (set_mRecvSeq theSeq r) st else st).
Proof. intros Ha Hr. unfold TestSetRecvSeq. rewrite Ha. cbn. rewrite Hr. reflexivity. Qed.

Lemma TestSetSendSeq_spec theSeq isReliable st h a r :
  mRefP st h = Some a → heap st !! a = Some r →
  TestSetSendSeq theSeq isReliable h st =
    let aRet := if isReliable then mSendSeq r + 1 =? theSeq else mSendSeq r <? theSeq in
    Some (aRet, if aRet then store a (set_mSendSeq theSeq r) st else st).
Proof. intros Ha Hr. unfold TestSetSendSeq. rewrite Ha. cbn. rewrite Hr. reflexivity. Qed.

(** ** The invariant holds in every reachable state *)

Lemma init_counter_range theId g :
  1 ≤ g ≤ USHRT_MAX → 1 ≤ init_counter theId g ≤ USHRT_MAX.
Proof.
  intros Hg. unfold init_counter. destruct (0 <? theId); [exact Hg|].
  rewrite next_id_spec by exact Hg. apply nth_id_range.
Qed.

Lemma Inv_initial : Inv initial_state.
Proof.
  split.
  - unfold USHRT_MAX. simpl. lia.
  - intros a. cbn. unfold refcount_at. destruct (decide (sentinel = a)) as [<-|Hne].
    + rewrite lookup_singleton_eq, decide_True by reflexivity. reflexivity.
    + rewrite lookup_singleton_ne, decide_False by congruence. reflexivity.
  - intros a r. cbn. intros [_ <-]%lookup_singleton_Some. cbn. lia.
  - exists (set_mId 0 SessionData_new).
    split; [reflexivity|]. split; [apply lookup_singleton_eq|reflexivity].
Qed.

(** A handle other than [gInvalidSession] bound to the sentinel's record
    makes that record shared. *)
Lemma Inv_sentinel_shared st h a r :
  Inv st → h ≠ gInvalidSession →
  mRefP st gInvalidSession = Some a → mRefP st h = Some a →
  heap st !! a = Some r → 2 ≤ mRefCt r.
Proof.
  intros HI Hne H0%mRefP_Some Hh%mRefP_Some Hr.
  pose proof (inv_count st HI a) as Hc. unfold refcount_at in Hc. rewrite Hr in Hc.
  rewrite Hc. eapply refs_lookup2; [|exact Hh|exact H0]. exact Hne.
Qed.

(** Overwriting a record in place, keeping its count (and its identifier if
    it is the sentinel's). *)
Lemma Inv_overwrite st a r r' g rel :
  Inv st → heap st !! a = Some r → mRefCt r' = mRefCt r →
  (mRefP st gInvalidSession = Some a → mId r' = 0) →
  1 ≤ g ≤ USHRT_MAX →
  Inv (mkState (<[a := r']> (heap st)) (handles st) g rel).
Proof.
  intros HI Hr Hc Hid Hg. split; cbn.
  - exact Hg.
  - intros b. rewrite refcount_at_insert. case_decide as E; [subst b|].
    + rewrite Hc, <- (inv_count st HI a). unfold refcount_at. rewrite Hr. reflexivity.
    + apply (inv_count st HI).
  - intros b rb. rewrite lookup_insert. case_decide as E.
    + intros [= <-]. rewrite Hc. apply (inv_live st HI a r Hr).
    + apply (inv_live st HI).
  - destruct (inv_sentinel st HI) as (r0 & H0 & Hr0 & Hi0).
    remember sentinel as a0 eqn:Ea0.
    destruct (decide (a = a0)) as [->|Hne].
    + exists r'. split; [exact H0|]. split; [apply lookup_insert_eq|]. auto.
    + exists r0. split; [exact H0|]. split; [|exact Hi0].
      rewrite lookup_insert_ne by exact Hne. exact Hr0.
Qed.

(** A new handle bound to a live record, counted. *)
Lemma Inv_share st h a r :
  Inv st → mRefP st h = Some a → heap st !! a = Some r →
  Inv (mkState (<[a := set_mRefCt (mRefCt r + 1) r]> (heap st))
         (handles st ++ [Some a]) (gNextSessionId st) (released st)).
Proof.
  intros HI Hh Hr. split; cbn.
  - apply (inv_gen st HI).
  - intros b. rewrite refcount_at_insert. case_decide as E; [subst b|].
    + rewrite refs_snoc_eq, <- (inv_count st HI a). unfold refcount_at.
      rewrite Hr. reflexivity.
    + rewrite refs_snoc_ne by congruence. apply (inv_count st HI).
  - intros b rb. rewrite lookup_insert. case_decide as E.
    + intros [= <-]. cbn. pose proof (inv_live st HI a r Hr). lia.
    + apply (inv_live st HI).
  - destruct (inv_sentinel st HI) as (r0 & H0 & Hr0 & Hi0).
    remember sentinel as a0 eqn:Ea0.
    assert (H0' : mRefP (mkState (<[a := set_mRefCt (mRefCt r + 1) r]> (heap st))
                  (handles st ++ [Some a]) (gNextSessionId st) (released st))
                  gInvalidSession = Some a0).
    { apply mRefP_Some. cbn. apply lookup_app_l_Some, mRefP_Some, H0. }
    destruct (decide (a = a0)) as [->|Hne].
    + exists (set_mRefCt (mRefCt r + 1) r). split; [exact H0'|].
      split; [apply lookup_insert_eq|]. cbn. congruence.
    + exists r0. split; [exact H0'|]. split; [|exact Hi0].
      rewrite lookup_insert_ne by exact Hne. exact Hr0.
Qed.

(** A new handle bound to a freshly allocated record. *)
Lemma Inv_alloc st r g :
  Inv st → mRefCt r = 1 → 1 ≤ g ≤ USHRT_MAX →
  Inv (mkState (<[fresh (dom (heap st)) := r]> (heap st))
         (handles st ++ [Some (fresh (dom (heap st)))]) g (released st)).
Proof.
  intros HI Hc Hg. pose proof (fresh_not_live (heap st)) as Hf.
  set (a := fresh (dom (heap st))) in *. split; cbn.
  - exact Hg.
  - intros b. rewrite refcount_at_insert. case_decide as E; [subst b|].
    + rewrite refs_snoc_eq, <- (inv_count st HI a). unfold refcount_at.
      rewrite Hf. lia.
    + rewrite refs_snoc_ne by congruence. apply (inv_count st HI).
  - intros b rb. rewrite lookup_insert. case_decide as E.
    + intros [= <-]. lia.
    + apply (inv_live st HI).
  - destruct (inv_sentinel st HI) as (r0 & H0 & Hr0 & Hi0).
    remember sentinel as a0 eqn:Ea0.
    exists r0. split; [|split; [|exact Hi0]].
    + apply mRefP_Some. cbn. apply lookup_app_l_Some, mRefP_Some, H0.
    + rewrite lookup_insert_ne by congruence. exact Hr0.
Qed.

Lemma refcount_at_Some (hp : gmap positive SessionData) a r :
  hp !! a = Some r → refcount_at hp a = mRefCt r.
Proof. intros Hr. unfold refcount_at. rewrite Hr. reflexivity. Qed.

Lemma mRefP_rebind_other st hp h x g rel :
  h ≠ gInvalidSession →
  mRefP (mkState hp (<[h := x]> (handles st)) g rel) gInvalidSession
  = mRefP st gInvalidSession.
Proof.
  intros Hne. unfold mRefP. cbn. rewrite list_lookup_insert_ne by exact Hne.
  reflexivity.
Qed.

(** Counting after one slot of the handle table changed. *)
Ltac count_rebind HI Hh :=
  let c := fresh "c" in
  intros c; cbn;
  repeat first [rewrite refcount_at_insert | rewrite refcount_at_delete];
  rewrite (refs_insert c _ _ _ _ Hh);
  pose proof (inv_count _ HI c);
  repeat case_decide; simplify_eq; try lia.

(** Dropping the last handle of a record frees the record. *)
Lemma Inv_unbind_free st h a r rel :
  Inv st → h ≠ gInvalidSession → mRefP st h = Some a → heap st !! a = Some r →
  mRefCt r - 1 ≤ 0 →
  Inv (mkState (delete a (heap st)) (<[h := None]> (handles st))
         (gNextSessionId st) rel).
Proof.
  intros HI Hne Hh Hr Hc. pose proof Hh as Hh'%mRefP_Some.
  pose proof (inv_live st HI a r Hr) as Hl.
  pose proof (refcount_at_Some _ _ _ Hr) as Ha.
  split.
  - apply (inv_gen st HI).
  - count_rebind HI Hh'.
  - intros b rb. cbn. rewrite lookup_delete. case_decide; [discriminate|].
    apply (inv_live st HI).
  - destruct (inv_sentinel st HI) as (r0 & H0 & Hr0 & Hi0).
    remember sentinel as a0 eqn:Ea0.
    exists r0. rewrite mRefP_rebind_other by exact Hne.
    split; [exact H0|]. split; [|exact Hi0]. cbn.
    rewrite lookup_delete_ne; [exact Hr0|]. intros ->.
    pose proof (Inv_sentinel_shared st h a0 r HI Hne H0 Hh Hr). lia.
Qed.

(** Dropping one of several handles of a record keeps the record. *)
Lemma Inv_unbind_keep st h a r :
  Inv st → h ≠ gInvalidSession → mRefP st h = Some a → heap st !! a = Some r →
  0 < mRefCt r - 1 →
  Inv (mkState (<[a := set_mRefCt (mRefCt r - 1) r]> (heap st))
         (<[h := None]> (handles st)) (gNextSessionId st) (released st)).
Proof.
  intros HI Hne Hh Hr Hc. pose proof Hh as Hh'%mRefP_Some.
  pose proof (refcount_at_Some _ _ _ Hr) as Ha.
  split.
  - apply (inv_gen st HI).
  - count_rebind HI Hh'. cbn. lia.
  - intros b rb. cbn. rewrite lookup_insert. case_decide.
    + intros [= <-]. cbn. lia.
    + apply (inv_live st HI).
  - destruct (inv_sentinel st HI) as (r0 & H0 & Hr0 & Hi0).
    remember sentinel as a0 eqn:Ea0.
    rewrite mRefP_rebind_other by exact Hne. cbn.
    destruct (decide (a = a0)) as [->|Hn].
    + exists (set_mRefCt (mRefCt r - 1) r). split; [exact H0|].
      split; [apply lookup_insert_eq|]. cbn. congruence.
    + exists r0. split; [exact H0|]. split; [|exact Hi0].
      rewrite lookup_insert_ne by exact Hn. exact Hr0.
Qed.

(** Assignment from a handle bound elsewhere, freeing the old record. *)
Lemma Inv_assign_free st h a b ra rb rel :
  Inv st → h ≠ gInvalidSession → mRefP st h = Some a → a ≠ b →
  heap st !! a = Some ra → heap st !! b = Some rb → mRefCt ra - 1 ≤ 0 →
  Inv (mkState (delete a (<[b := set_mRefCt (mRefCt rb + 1) rb]> (heap st)))
         (<[h := Some b]> (handles st)) (gNextSessionId st) rel).
Proof.
  intros HI Hne Hh Hab Hra Hrb Hc. pose proof Hh as Hh'%mRefP_Some.
  pose proof (inv_live st HI a ra Hra) as Hl.
  pose proof (refcount_at_Some _ _ _ Hra) as Ha.
  pose proof (refcount_at_Some _ _ _ Hrb) as Hb.
  split.
  - apply (inv_gen st HI).
  - count_rebind HI Hh'. cbn. lia.
  - intros c rc. cbn. rewrite lookup_delete. case_decide; [discriminate|].
    rewrite lookup_insert. case_decide.
    + intros [= <-]. cbn. pose proof (inv_live st HI b rb Hrb). lia.
    + apply (inv_live st HI).
  - destruct (inv_sentinel st HI) as (r0 & H0 & Hr0 & Hi0).
    remember sentinel as a0 eqn:Ea0.
    rewrite mRefP_rebind_other by exact Hne. cbn.
    assert (a ≠ a0) as Hn.
    { intros ->. pose proof (Inv_sentinel_shared st h a0 ra HI Hne H0 Hh Hra). lia. }
    destruct (decide (b = a0)) as [->|Hn'].
    + exists (set_mRefCt (mRefCt rb + 1) rb). split; [exact H0|].
      rewrite lookup_delete_ne by exact Hn. split; [apply lookup_insert_eq|].
      cbn. congruence.
    + exists r0. split; [exact H0|]. split; [|exact Hi0].
      rewrite lookup_delete_ne, lookup_insert_ne by assumption. exact Hr0.
Qed.

(** Assignment from a handle bound elsewhere, the old record staying. *)
Lemma Inv_assign_keep st h a b ra rb :
  Inv st → h ≠ gInvalidSession → mRefP st h = Some a → a ≠ b →
  heap st !! a = Some ra → heap st !! b = Some rb → 0 < mRefCt ra - 1 →
  Inv (mkState (<[a := set_mRefCt (mRefCt ra - 1) ra]>
                  (<[b := set_mRefCt (mRefCt rb + 1) rb]> (heap st)))
         (<[h := Some b]> (handles st)) (gNextSessionId st) (released st)).
Proof.
  intros HI Hne Hh Hab Hra Hrb Hc. pose proof Hh as Hh'%mRefP_Some.
  pose proof (refcount_at_Some _ _ _ Hra) as Ha.
  pose proof (refcount_at_Some _ _ _ Hrb) as Hb.
  split.
  - apply (inv_gen st HI).
  - count_rebind HI Hh'; cbn; lia.
  - intros c rc. cbn. rewrite !lookup_insert. repeat case_decide.
    + intros [= <-]. cbn. lia.
    + intros [= <-]. cbn. pose proof (inv_live st HI b rb Hrb). lia.
    + apply (inv_live st HI).
  - destruct (inv_sentinel st HI) as (r0 & H0 & Hr0 & Hi0).
    remember sentinel as a0 eqn:Ea0.
    rewrite mRefP_rebind_other by exact Hne. cbn.
    destruct (decide (a = a0)) as [->|Hn]; [|destruct (decide (b = a0)) as [->|Hn']].
    + exists (set_mRefCt (mRefCt ra - 1) ra). split; [exact H0|].
      split; [apply lookup_insert_eq|]. cbn. congruence.
    + exists (set_mRefCt (mRefCt rb + 1) rb). split; [exact H0|].
      rewrite lookup_insert_ne by exact Hn. split; [apply lookup_insert_eq|].
      cbn. congruence.
    + exists r0. split; [exact H0|]. split; [|exact Hi0].
      rewrite !lookup_insert_ne by assumption. exact Hr0.
Qed.

(** [Init] through a shared handle: the old record loses one count, the
    handle is bound to a fresh record. *)
Lemma Inv_detach st h a r r' g :
  Inv st → h ≠ gInvalidSession → mRefP st h = Some a → heap st !! a = Some r →
  1 < mRefCt r → mRefCt r' = 1 → 1 ≤ g ≤ USHRT_MAX →
  Inv (mkState (<[fresh (dom (heap st)) := r']>
                  (<[a := set_mRefCt (mRefCt r - 1) r]> (heap st)))
         (<[h := Some (fresh (dom (heap st)))]> (handles st)) g (released st)).
Proof.
  intros HI Hne Hh Hr Hc Hc' Hg. pose proof Hh as Hh'%mRefP_Some.
  pose proof (refcount_at_Some _ _ _ Hr) as Ha.
  pose proof (fresh_not_live (heap st)) as Hf.
  set (a' := fresh (dom (heap st))) in *.
  assert (Hf' : refcount_at (heap st) a' = 0) by (unfold refcount_at; rewrite Hf; reflexivity).
  assert (a' ≠ a) as Hn by congruence.
  split.
  - exact Hg.
  - count_rebind HI Hh'; cbn; lia.
  - intros c rc. cbn. rewrite !lookup_insert. repeat case_decide.
    + intros [= <-]. lia.
    + intros [= <-]. cbn. lia.
    + apply (inv_live st HI).
  - destruct (inv_sentinel st HI) as (r0 & H0 & Hr0 & Hi0).
    remember sentinel as a0 eqn:Ea0.
    rewrite mRefP_rebind_other by exact Hne. cbn.
    assert (a' ≠ a0) as Hn0 by congruence.
    destruct (decide (a = a0)) as [->|Hn'].
    + exists (set_mRefCt (mRefCt r - 1) r). split; [exact H0|].
      rewrite lookup_insert_ne by exact Hn0. split; [apply lookup_insert_eq|].
      cbn. congruence.
    + exists r0. split; [exact H0|]. split; [|exact Hi0].
      rewrite !lookup_insert_ne by assumption. exact Hr0.
Qed.

Lemma mutable_true h : mutable h = true → h ≠ gInvalidSession.
Proof. unfold mutable. apply bool_decide_eq_true_1. Qed.

Lemma ret_unit_Some x res st' :
  ret_unit x = Some (res, st') → x = Some st' ∧ res = RUnit.
Proof. destruct x; cbn; intros [= <- <-]; auto. Qed.

Lemma ret_handle_Some x res st' :
  ret_handle x = Some (res, st') → ∃ h, x = Some (h, st') ∧ res = RHandle h.
Proof. destruct x as [[h st]|]; cbn; intros [= <- <-]; eauto. Qed.

Lemma ret_bool_Some x res st' :
  ret_bool x = Some (res, st') → ∃ b, x = Some (b, st') ∧ res = RBool b.
Proof. destruct x as [[b st]|]; cbn; intros [= <- <-]; eauto. Qed.

(** A method that returned was called on a live handle. *)
Ltac live_handle HI H st h a r :=
  let Hh := fresh "Hh" in
  let Hr := fresh "Hr" in
  destruct (mRefP st h) as [a|] eqn:Hh;
    [destruct (Inv_live st h a HI Hh) as [r Hr]
    |unfold Session_copy, Session_destroy, Session_assign, Init, Touch,
       TestSetRecvSeq, TestSetSendSeq in H; rewrite Hh in H; discriminate H].

Lemma run_Inv P st o res st' :
  Inv st → run P st o = Some (res, st') → Inv st'.
Proof.
  intros HI H. destruct o; cbn [run] in H.
  - (* Session() *)
    apply ret_handle_Some in H as (h & H & _).
    destruct (inv_sentinel st HI) as (r0 & H0 & Hr0 & _).
    remember sentinel as a0 eqn:Ea0.
    rewrite (Session_default_spec st a0 r0 H0 Hr0) in H. injection H as _ <-.
    apply (Inv_share st gInvalidSession); assumption.
  - (* Session(theAttr, theKeyP, theCertP, theId) *)
    apply ret_handle_Some in H as (h & H & _).
    rewrite Session_init_spec in H. injection H as _ <-.
    apply Inv_alloc; [exact HI|reflexivity|apply init_counter_range, (inv_gen st HI)].
  - (* Session(theId) *)
    apply ret_handle_Some in H as (h & H & _).
    rewrite Session_id_spec in H. injection H as _ <-.
    apply Inv_alloc; [exact HI|reflexivity|apply (inv_gen st HI)].
  - (* copy *)
    apply ret_handle_Some in H as (h & H & _).
    live_handle HI H st theSessR a r.
    rewrite (Session_copy_spec st theSessR a r Hh Hr) in H. injection H as _ <-.
    apply (Inv_share st theSessR); assumption.
  - (* destructor *)
    destruct (mutable h) eqn:Hm; [|discriminate]. apply mutable_true in Hm.
    apply ret_unit_Some in H as [H _].
    live_handle HI H st h a r.
    rewrite (Session_destroy_spec st h a r Hh Hr) in H. injection H as <-.
    destruct (Z.leb_spec (mRefCt r - 1) 0).
    + apply (Inv_unbind_free st h a r); assumption.
    + apply (Inv_unbind_keep st h a r); assumption.
  - (* operator= *)
    destruct (mutable h) eqn:Hm; [|discriminate]. apply mutable_true in Hm.
    apply ret_unit_Some in H as [H _].
    live_handle HI H st h a ra.
    destruct (mRefP st theSessR) as [b|] eqn:Hb;
      [|unfold Session_assign in H; rewrite Hh, Hb in H; discriminate H].
    destruct (Inv_live st theSessR b HI Hb) as [rb Hrb].
    destruct (decide (a = b)) as [<-|Hab].
    + rewrite (Session_assign_same st h theSessR a Hh Hb) in H.
      injection H as <-. exact HI.
    + rewrite (Session_assign_spec st h theSessR a b ra rb Hh Hb Hab Hr Hrb) in H.
      injection H as <-.
      destruct (Z.leb_spec (mRefCt ra - 1) 0).
      * apply (Inv_assign_free st h a b ra rb); assumption.
      * apply (Inv_assign_keep st h a b ra rb); assumption.
  - (* IsValid *)
    destruct (IsValid st h); [|discriminate]. injection H as _ <-. exact HI.
  - (* Init *)
    destruct (mutable h) eqn:Hm; [|discriminate]. apply mutable_true in Hm.
    apply ret_unit_Some in H as [H _].
    live_handle HI H st h a r.
    destruct (Z.lt_ge_cases 1 (mRefCt r)) as [Hc|Hc].
    + rewrite (Init_shared _ _ _ _ _ h st a r Hh Hr Hc) in H. injection H as <-.
      apply (Inv_detach st h a r); try assumption; [reflexivity|].
      apply init_counter_range, (inv_gen st HI).
    + rewrite (Init_exclusive _ _ _ _ _ h st a r Hh Hr Hc) in H. injection H as <-.
      apply (Inv_overwrite st a r); try assumption; [reflexivity| |].
      * intros H0. pose proof (Inv_sentinel_shared st h a r HI Hm H0 Hh Hr). lia.
      * apply init_counter_range, (inv_gen st HI).
  - (* Touch *)
    apply ret_unit_Some in H as [H _].
    live_handle HI H st h a r.
    rewrite (Touch_spec now st h a r Hh Hr) in H. injection H as <-.
    destruct (inv_sentinel st HI) as (r0 & H0 & Hr0 & Hi0).
    remember sentinel as a0 eqn:Ea0.
    apply (Inv_overwrite st a r); try assumption; [reflexivity| |apply (inv_gen st HI)].
    intros H0'. cbn. congruence.
  - (* TestSetRecvSeq *)
    apply ret_bool_Some in H as (b & H & _).
    live_handle HI H st h a r.
    rewrite (TestSetRecvSeq_spec theSeq isReliable st h a r Hh Hr) in H.
    cbn zeta in H. injection H as _ <-.
    destruct (if isReliable then _ else _); [|exact HI].
    destruct (inv_sentinel st HI) as (r0 & H0 & Hr0 & Hi0).
    remember sentinel as a0 eqn:Ea0.
    apply (Inv_overwrite st a r); try assumption; [reflexivity| |apply (inv_gen st HI)].
    intros H0'. cbn. congruence.
  - (* TestSetSendSeq *)
    apply ret_bool_Some in H as (b & H & _).
    live_handle HI H st h a r.
    rewrite (TestSetSendSeq_spec theSeq isReliable st h a r Hh Hr) in H.
    cbn zeta in H. injection H as _ <-.
    destruct (if isReliable then _ else _); [|exact HI].
    destruct (inv_sentinel st HI) as (r0 & H0 & Hr0 & Hi0).
    remember sentinel as a0 eqn:Ea0.
    apply (Inv_overwrite st a r); try assumption; [reflexivity| |apply (inv_gen st HI)].
    intros H0'. cbn. congruence.
  - (* Dump *)
    destruct (Dump P verbose st h); [|discriminate]. injection H as _ <-. exact HI.
Qed.

Lemma reachable_Inv P st : reachable P st → Inv st.
Proof.
  induction 1 as [|st o res st' _ IH Hrun]; [apply Inv_initial|].
  exact (run_Inv P st o res st' IH Hrun).
Qed.

(** ** Initialisation *)

Lemma deref_mkState hp hs g rel h a r :
  hs !! h = Some (Some a) → hp !! a = Some r →
  deref (mkState hp hs g rel) h = Some r.
Proof. intros Hh Hr. unfold deref, mRefP. cbn. rewrite Hh. cbn. exact Hr. Qed.

(** C5: [Init] on a live handle returns, and the record the handle is bound
    to afterwards has: for [theId > 0], identifier [theId] and [mIsRemote]
    set; for [theId = 0], the non-zero identifier returned by
    [GetNextSessionId] and [mIsRemote] clear; in both cases the attributes,
    key and certificate supplied, and both sequence numbers 0.  The
    generator's counter is assumed in 1..65535, as it is in every reachable
    state. *)
Theorem Init_postcondition theAttr theKeyP theCertP theId now st h a r :
  mRefP st h = Some a → heap st !! a = Some r →
  1 ≤ gNextSessionId st ≤ USHRT_MAX →
  ∃ st' r',
    Init theAttr theKeyP theCertP theId now h st = Some st'
    ∧ deref st' h = Some r'
    ∧ (0 < theId → mId r' = theId ∧ mIsRemote r' = true)
    ∧ (theId = 0 → mId r' = (GetNextSessionId st).1 ∧ mId r' ≠ 0
                   ∧ mIsRemote r' = false)
    ∧ mEncryptAttr r' = theAttr
    ∧ mKeyP r' = theKeyP ∧ mCertP r' = theCertP
    ∧ mRecvSeq r' = 0 ∧ mSendSeq r' = 0.
Proof.
  intros Hh Hr Hg.
  assert (Hlt : (h < length (handles st))%nat).
  { apply mRefP_Some in Hh. eapply lookup_lt_Some, Hh. }
  assert (Hpost : ∀ r0 : SessionData,
    let r' := init_record theAttr theKeyP theCertP theId now (gNextSessionId st) r0 in
    (0 < theId → mId r' = theId ∧ mIsRemote r' = true)
    ∧ (theId = 0 → mId r' = (GetNextSessionId st).1 ∧ mId r' ≠ 0
                   ∧ mIsRemote r' = false)
    ∧ mEncryptAttr r' = theAttr
    ∧ mKeyP r' = theKeyP ∧ mCertP r' = theCertP
    ∧ mRecvSeq r' = 0 ∧ mSendSeq r' = 0).
  { intros r0. cbn. split; [|split].
    - intros Hpos. apply Z.ltb_lt in Hpos. rewrite Hpos. auto.
    - intros ->. cbn. split; [reflexivity|]. split; [lia|reflexivity].
    - repeat split. }
  destruct (Z.lt_ge_cases 1 (mRefCt r)) as [Hc|Hc].
  - eexists _, _. split; [apply (Init_shared _ _ _ _ _ h st a r Hh Hr Hc)|].
    split; [|apply Hpost].
    apply (deref_mkState _ _ _ _ h (fresh (dom (heap st)))).
    + apply list_lookup_insert_eq, Hlt.
    + apply lookup_insert_eq.
  - eexists _, _. split; [apply (Init_exclusive _ _ _ _ _ h st a r Hh Hr Hc)|].
    split; [|apply Hpost].
    apply (deref_mkState _ _ _ _ h a).
    + apply mRefP_Some, Hh.
    + apply lookup_insert_eq.
Qed.

Lemma Init_postcondition_witness :
  ∃ st' r',
    Init battr (Some 7%positive) None 0 200 1%nat shared_state = Some st'
    ∧ deref st' 1%nat = Some r'
    ∧ (0 < 0 → mId r' = 0 ∧ mIsRemote r' = true)
    ∧ (0 = 0 → mId r' = (GetNextSessionId shared_state).1 ∧ mId r' ≠ 0
               ∧ mIsRemote r' = false)
    ∧ mEncryptAttr r' = battr
    ∧ mKeyP r' = Some 7%positive ∧ mCertP r' = None
    ∧ mRecvSeq r' = 0 ∧ mSendSeq r' = 0.
Proof.
  apply (Init_postcondition battr (Some 7%positive) None 0 200 shared_state
           1%nat 2%positive shared_record).
  - reflexivity.
  - reflexivity.
  - unfold USHRT_MAX. simpl. lia.
Defined.

(** In a reachable state [Init] returns on every live handle. *)
Lemma Init_returns_reachable P theAttr theKeyP theCertP theId now st h a :
  reachable P st → mRefP st h = Some a →
  is_Some (Init theAttr theKeyP theCertP theId now h st).
Proof.
  intros HI%reachable_Inv Hh. destruct (Inv_live st h a HI Hh) as [r Hr].
  destruct (Z.lt_ge_cases 1 (mRefCt r)) as [Hc|Hc].
  - rewrite (Init_shared _ _ _ _ _ h st a r Hh Hr Hc). eauto.
  - rewrite (Init_exclusive _ _ _ _ _ h st a r Hh Hr Hc). eauto.
Qed.

(** Re-initialising in place releases nothing: the key and certificate the
    record held are overwritten. *)
Lemma Init_in_place_releases_nothing theAttr theKeyP theCertP theId now st h a r :
  mRefP st h = Some a → heap st !! a = Some r → mRefCt r ≤ 1 →
  ∃ st' r', Init theAttr theKeyP theCertP theId now h st = Some st'
    ∧ released st' = released st
    ∧ heap st' !! a = Some r'
    ∧ mKeyP r' = theKeyP ∧ mCertP r' = theCertP.
Proof.
  intros Hh Hr Hc. eexists _, _.
  split; [apply (Init_exclusive _ _ _ _ _ h st a r Hh Hr Hc)|]. cbn.
  split; [reflexivity|]. split; [apply lookup_insert_eq|]. split; reflexivity.
Qed.

(** C3: [Init] through a handle [h] whose record [a] is shared (count above
    1) returns; [h] ends up bound to a record [a'] that was not allocated
    before, is alive and has count 1; the record at [a] is still there, its
    count is one less than it was and every other field reads as before;
    every other handle is bound as before, so a handle that shared [a] with
    [h] reads those same fields; no other record changed and nothing was
    released. *)
Theorem Init_shared_frame theAttr theKeyP theCertP theId now st h a r :
  mRefP st h = Some a → heap st !! a = Some r → 1 < mRefCt r →
  ∃ st' a' r' r1,
    Init theAttr theKeyP theCertP theId now h st = Some st'
    ∧ mRefP st' h = Some a' ∧ a' ≠ a ∧ heap st !! a' = None
    ∧ heap st' !! a' = Some r' ∧ mRefCt r' = 1
    ∧ heap st' !! a = Some r1
    ∧ mRefCt r1 = mRefCt r - 1 ∧ same_except_count r r1
    ∧ (∀ b, b ≠ a → b ≠ a' → heap st' !! b = heap st !! b)
    ∧ (∀ h', h' ≠ h → mRefP st' h' = mRefP st h')
    ∧ (∀ h', h' ≠ h → mRefP st h' = Some a → deref st' h' = Some r1)
    ∧ released st' = released st.
Proof.
  intros Hh Hr Hc.
  pose proof (fresh_not_live (heap st)) as Hf.
  assert (Hne : fresh (dom (heap st)) ≠ a) by congruence.
  assert (Hlt : (h < length (handles st))%nat).
  { apply mRefP_Some in Hh. eapply lookup_lt_Some, Hh. }
  eexists _, (fresh (dom (heap st))), _, (set_mRefCt (mRefCt r - 1) r).
  split; [apply (Init_shared _ _ _ _ _ h st a r Hh Hr Hc)|].
  assert (Hother : ∀ h', h' ≠ h →
    mRefP (mkState
             (<[fresh (dom (heap st)) :=
                  init_record theAttr theKeyP theCertP theId now (gNextSessionId st)
                    SessionData_new]>
                (<[a := set_mRefCt (mRefCt r - 1) r]> (heap st)))
             (<[h := Some (fresh (dom (heap st)))]> (handles st))
             (init_counter theId (gNextSessionId st)) (released st)) h'
    = mRefP st h').
  { intros h' Hh'. unfold mRefP. cbn.
    rewrite list_lookup_insert_ne by congruence. reflexivity. }
  assert (Hold :
    <[fresh (dom (heap st)) :=
        init_record theAttr theKeyP theCertP theId now (gNextSessionId st)
          SessionData_new]>
      (<[a := set_mRefCt (mRefCt r - 1) r]> (heap st)) !! a
    = Some (set_mRefCt (mRefCt r - 1) r)).
  { rewrite lookup_insert_ne by exact Hne. apply lookup_insert_eq. }
  split; [apply mRefP_Some; cbn; apply list_lookup_insert_eq, Hlt|].
  split; [exact Hne|]. split; [exact Hf|].
  split; [cbn; apply lookup_insert_eq|]. split; [reflexivity|].
  split; [exact Hold|]. split; [reflexivity|]. split; [repeat split|].
  split.
  { intros b Hb Hb'. cbn. rewrite !lookup_insert_ne by congruence. reflexivity. }
  split; [exact Hother|]. split; [|reflexivity].
  intros h' Hh' Hsh. unfold deref. rewrite (Hother h' Hh'), Hsh. exact Hold.
Qed.

Lemma Init_shared_frame_witness :
  ∃ st' a' r' r1,
    Init battr (Some 7%positive) None 9 200 1%nat shared_state = Some st'
    ∧ mRefP st' 1%nat = Some a' ∧ a' ≠ 2%positive
    ∧ heap shared_state !! a' = None
    ∧ heap st' !! a' = Some r' ∧ mRefCt r' = 1
    ∧ heap st' !! 2%positive = Some r1
    ∧ mRefCt r1 = mRefCt shared_record - 1 ∧ same_except_count shared_record r1
    ∧ (∀ b, b ≠ 2%positive → b ≠ a' → heap st' !! b = heap shared_state !! b)
    ∧ (∀ h', h' ≠ 1%nat → mRefP st' h' = mRefP shared_state h')
    ∧ (∀ h', h' ≠ 1%nat → mRefP shared_state h' = Some 2%positive →
         deref st' h' = Some r1)
    ∧ released st' = released shared_state.
Proof.
  apply (Init_shared_frame battr (Some 7%positive) None 9 200 shared_state
           1%nat 2%positive shared_record).
  - reflexivity.
  - reflexivity.
  - simpl. lia.
Defined.

(** In a reachable state two distinct handles on one record make its count
    exceed 1, so [Init] through one of them detaches and the other reads the
    record as it was, one count less. *)
Lemma Init_other_handle_unaffected P theAttr theKeyP theCertP theId now st h h' a r :
  reachable P st → h ≠ h' →
  mRefP st h = Some a → mRefP st h' = Some a → heap st !! a = Some r →
  ∃ st', Init theAttr theKeyP theCertP theId now h st = Some st'
         ∧ deref st' h' = Some (set_mRefCt (mRefCt r - 1) r).
Proof.
  intros HI%reachable_Inv Hne Hh Hh' Hr.
  assert (Hc : 1 < mRefCt r).
  { pose proof (inv_count st HI a) as Hc. rewrite (refcount_at_Some _ _ _ Hr) in Hc.
    pose proof (refs_lookup2 a (handles st) h h' Hne
                  (proj1 (mRefP_Some _ _ _) Hh) (proj1 (mRefP_Some _ _ _) Hh')).
    lia. }
  eexists. split; [apply (Init_shared _ _ _ _ _ h st a r Hh Hr Hc)|].
  apply (deref_mkState _ _ _ _ h' a).
  - rewrite list_lookup_insert_ne by exact Hne. apply mRefP_Some, Hh'.
  - pose proof (fresh_not_live (heap st)).
    rewrite lookup_insert_ne by congruence. apply lookup_insert_eq.
Qed.

Lemma run_all_reachable P os : ∀ st st',
  reachable P st → run_all P st os = Some st' → reachable P st'.
Proof.
  induction os as [|o os IH]; intros st st' Hr H; cbn in H.
  - injection H as <-. exact Hr.
  - destruct (run P st o) as [[res st1]|] eqn:Ho; [|discriminate].
    cbn in H. apply (IH st1 st'); [|exact H].
    exact (reachable_step P st o res st1 Hr Ho).
Qed.

Lemma shared_state_reachable P : reachable P shared_state.
Proof.
  apply (run_all_reachable P shared_program initial_state);
    [apply reachable_init|vm_compute; reflexivity].
Qed.

Lemma certonly_state_reachable P : reachable P certonly_state.
Proof.
  apply (run_all_reachable P certonly_program initial_state);
    [apply reachable_init|vm_compute; reflexivity].
Qed.

Lemma maxed_state_reachable P : reachable P maxed_state.
Proof.
  apply (run_all_reachable P maxed_program initial_state);
    [apply reachable_init|vm_compute; reflexivity].
Qed.

(** ** Sequence numbers only move through test-and-set *)

Lemma same_seqs_refl r : same_seqs r r.
Proof. split; reflexivity. Qed.

Lemma seqs_kept_refl hp : seqs_kept hp hp.
Proof. intros a r r' Hr Hr'. rewrite Hr in Hr'. injection Hr' as <-. apply same_seqs_refl. Qed.

Lemma seqs_kept_insert hp hp1 a0 r0 r0' :
  seqs_kept hp hp1 → hp1 !! a0 = Some r0 → same_seqs r0 r0' →
  seqs_kept hp (<[a0 := r0']> hp1).
Proof.
  intros Hk H0 [Hs1 Hs2] a r r' Hr. rewrite lookup_insert. case_decide as E.
  - subst a0. intros [= <-]. destruct (Hk a r r0 Hr H0) as [K1 K2].
    split; congruence.
  - apply Hk, Hr.
Qed.

Lemma seqs_kept_fresh hp hp1 a0 x :
  seqs_kept hp hp1 → hp !! a0 = None → seqs_kept hp (<[a0 := x]> hp1).
Proof.
  intros Hk H0 a r r' Hr. rewrite lookup_insert. case_decide as E.
  - subst a0. congruence.
  - apply Hk, Hr.
Qed.

Lemma seqs_kept_delete hp hp1 a0 :
  seqs_kept hp hp1 → seqs_kept hp (delete a0 hp1).
Proof.
  intros Hk a r r' Hr. rewrite lookup_delete. case_decide; [discriminate|].
  apply Hk, Hr.
Qed.

(** A method that returned was called on a handle bound to a live record. *)
Ltac returned H st h a r :=
  let Hh := fresh "Hh" in
  let Hr := fresh "Hr" in
  destruct (mRefP st h) as [a|] eqn:Hh;
    [destruct (heap st !! a) as [r|] eqn:Hr;
       [|unfold Session_default, Session_copy, Session_destroy, Init, Touch,
           TestSetRecvSeq, TestSetSendSeq, IsValid, Dump, deref,
           InterlockedIncrement, release in H;
         rewrite Hh in H; cbn in H; rewrite Hr in H; discriminate H]
    |unfold Session_default, Session_copy, Session_destroy, Session_assign, Init,
       Touch, TestSetRecvSeq, TestSetSendSeq, IsValid, Dump, deref in H;
     rewrite Hh in H; discriminate H].

(** Apart from the two test-and-set methods and [Init], no call changes the
    sequence numbers of a record that is alive before and after it. *)
Lemma run_seqs_kept P st o res st' :
  run P st o = Some (res, st') →
  match o with
  | OpInit _ _ _ _ _ _ | OpTestSetRecvSeq _ _ _ | OpTestSetSendSeq _ _ _ => True
  | _ => seqs_kept (heap st) (heap st')
  end.
Proof.
  intros H. destruct o; cbn [run] in H; try exact I.
  - apply ret_handle_Some in H as (h & H & _).
    returned H st gInvalidSession a r.
    rewrite (Session_default_spec st a r Hh Hr) in H. injection H as _ <-. cbn.
    apply (seqs_kept_insert _ _ a r); [apply seqs_kept_refl|exact Hr|split; reflexivity].
  - apply ret_handle_Some in H as (h & H & _).
    rewrite Session_init_spec in H. injection H as _ <-. cbn.
    apply seqs_kept_fresh; [apply seqs_kept_refl|apply fresh_not_live].
  - apply ret_handle_Some in H as (h & H & _).
    rewrite Session_id_spec in H. injection H as _ <-. cbn.
    apply seqs_kept_fresh; [apply seqs_kept_refl|apply fresh_not_live].
  - apply ret_handle_Some in H as (h & H & _).
    returned H st theSessR a r.
    rewrite (Session_copy_spec st theSessR a r Hh Hr) in H. injection H as _ <-. cbn.
    apply (seqs_kept_insert _ _ a r); [apply seqs_kept_refl|exact Hr|split; reflexivity].
  - destruct (mutable h); [|discriminate].
    apply ret_unit_Some in H as [H _].
    returned H st h a r.
    rewrite (Session_destroy_spec st h a r Hh Hr) in H. injection H as <-.
    destruct (mRefCt r - 1 <=? 0); cbn.
    + apply seqs_kept_delete, seqs_kept_refl.
    + apply (seqs_kept_insert _ _ a r); [apply seqs_kept_refl|exact Hr|split; reflexivity].
  - destruct (mutable h); [|discriminate].
    apply ret_unit_Some in H as [H _].
    destruct (mRefP st h) as [a|] eqn:Hh;
      [|unfold Session_assign in H; rewrite Hh in H; discriminate H].
    destruct (mRefP st theSessR) as [b|] eqn:Hb;
      [|unfold Session_assign in H; rewrite Hh, Hb in H; discriminate H].
    destruct (decide (a = b)) as [<-|Hab].
    { rewrite (Session_assign_same st h theSessR a Hh Hb) in H.
      injection H as <-. apply seqs_kept_refl. }
    destruct (heap st !! b) as [rb|] eqn:Hrb;
      [|unfold Session_assign, InterlockedIncrement in H; rewrite Hh, Hb in H;
        cbn in H; rewrite decide_True in H by exact Hab; rewrite Hrb in H;
        discriminate H].
    destruct (heap st !! a) as [ra|] eqn:Hra;
      [|unfold Session_assign, InterlockedIncrement, release in H;
        rewrite Hh, Hb in H; cbn in H; rewrite decide_True in H by exact Hab;
        rewrite Hrb in H; cbn in H; rewrite lookup_insert_ne in H by congruence;
        rewrite Hra in H; discriminate H].
    rewrite (Session_assign_spec st h theSessR a b ra rb Hh Hb Hab Hra Hrb) in H.
    injection H as <-.
    assert (seqs_kept (heap st) (<[b := set_mRefCt (mRefCt rb + 1) rb]> (heap st))) as Hk.
    { apply (seqs_kept_insert _ _ b rb);
        [apply seqs_kept_refl|exact Hrb|split; reflexivity]. }
    destruct (mRefCt ra - 1 <=? 0); cbn.
    + apply seqs_kept_delete, Hk.
    + apply (seqs_kept_insert _ _ a ra); [exact Hk| |split; reflexivity].
      rewrite lookup_insert_ne by congruence. exact Hra.
  - destruct (IsValid st h); [|discriminate]. injection H as _ <-. apply seqs_kept_refl.
  - apply ret_unit_Some in H as [H _].
    returned H st h a r.
    rewrite (Touch_spec now st h a r Hh Hr) in H. injection H as <-. cbn.
    apply (seqs_kept_insert _ _ a r); [apply seqs_kept_refl|exact Hr|split; reflexivity].
  - destruct (Dump P verbose st h); [|discriminate]. injection H as _ <-. apply seqs_kept_refl.
Qed.

(** [Init] changes the sequence numbers of no record but the one its handle
    is bound to afterwards. *)
Lemma Init_seqs_kept theAttr theKeyP theCertP theId now h st st' a r r' :
  Init theAttr theKeyP theCertP theId now h st = Some st' →
  heap st !! a = Some r → heap st' !! a = Some r' → mRefP st' h ≠ Some a →
  same_seqs r r'.
Proof.
  intros H Ha Ha' Hn.
  returned H st h a0 r0.
  assert (Hlt : (h < length (handles st))%nat).
  { apply mRefP_Some in Hh. eapply lookup_lt_Some, Hh. }
  destruct (Z.lt_ge_cases 1 (mRefCt r0)) as [Hc|Hc].
  - rewrite (Init_shared _ _ _ _ _ h st a0 r0 Hh Hr Hc) in H. injection H as <-.
    cbn in Ha'. revert Ha'.
    apply (seqs_kept_fresh (heap st)); [|apply fresh_not_live|exact Ha].
    apply (seqs_kept_insert _ _ a0 r0); [apply seqs_kept_refl|exact Hr|split; reflexivity].
  - rewrite (Init_exclusive _ _ _ _ _ h st a0 r0 Hh Hr Hc) in H. injection H as <-.
    cbn in Ha'. rewrite lookup_insert in Ha'. case_decide as E.
    + exfalso. apply Hn. subst a0. exact Hh.
    + rewrite Ha in Ha'. injection Ha' as <-. apply same_seqs_refl.
Qed.

(** C6: across any call that returns, for a record alive before and after:
    an accepted [TestSetRecvSeq] on a handle bound to it leaves [mRecvSeq]
    strictly greater than before (and equal to [theSeq]); a rejected one, or
    one on a handle bound elsewhere, leaves it unchanged, and [mSendSeq] is
    unchanged either way; symmetrically for [TestSetSendSeq]; [Init] leaves
    both numbers of every record but the one it initialises unchanged; every
    other call leaves both unchanged. *)
Theorem sequence_numbers_progress P st o res st' a r r' :
  run P st o = Some (res, st') →
  heap st !! a = Some r → heap st' !! a = Some r' →
  match o with
  | OpTestSetRecvSeq h theSeq isReliable =>
      mSendSeq r' = mSendSeq r
      ∧ (mRefP st h = Some a → res = RBool true →
           mRecvSeq r < mRecvSeq r' ∧ mRecvSeq r' = theSeq)
      ∧ (mRefP st h ≠ Some a ∨ res = RBool false → mRecvSeq r' = mRecvSeq r)
  | OpTestSetSendSeq h theSeq isReliable =>
      mRecvSeq r' = mRecvSeq r
      ∧ (mRefP st h = Some a → res = RBool true →
           mSendSeq r < mSendSeq r' ∧ mSendSeq r' = theSeq)
      ∧ (mRefP st h ≠ Some a ∨ res = RBool false → mSendSeq r' = mSendSeq r)
  | OpInit h _ _ _ _ _ => mRefP st' h ≠ Some a → same_seqs r r'
  | _ => same_seqs r r'
  end.
Proof.
  intros H Ha Ha'.
  destruct o;
    try (exact (run_seqs_kept P st _ res st' H a r r' Ha Ha')).
  - (* Init *)
    cbn [run] in H. destruct (mutable h); [|discriminate].
    apply ret_unit_Some in H as [H _]. intros Hn.
    exact (Init_seqs_kept _ _ _ _ _ h st st' a r r' H Ha Ha' Hn).
  - (* TestSetRecvSeq *)
    cbn [run] in H. apply ret_bool_Some in H as (b & H & ->).
    returned H st h a0 r0.
    rewrite (TestSetRecvSeq_spec theSeq isReliable st h a0 r0 Hh Hr) in H.
    cbn zeta in H. injection H as Hb <-.
    destruct (if isReliable then _ else _) eqn:Et; subst b.
    + cbn in Ha'. rewrite lookup_insert in Ha'. case_decide as E.
      * subst a0. injection Ha' as <-. rewrite Ha in Hr. injection Hr as <-. cbn.
        split; [reflexivity|]. split.
        -- intros _ _. split; [|reflexivity].
           apply accepts_recv_test in Et. unfold accepts in Et.
           destruct isReliable; lia.
        -- intros [Hn|Hn]; [contradiction Hn; reflexivity|discriminate Hn].
      * rewrite Ha in Ha'. injection Ha' as <-.
        split; [reflexivity|]. split; [congruence|reflexivity].
    + rewrite Ha in Ha'. injection Ha' as <-.
      split; [reflexivity|]. split; [discriminate|reflexivity].
  - (* TestSetSendSeq *)
    cbn [run] in H. apply ret_bool_Some in H as (b & H & ->).
    returned H st h a0 r0.
    rewrite (TestSetSendSeq_spec theSeq isReliable st h a0 r0 Hh Hr) in H.
    cbn zeta in H. injection H as Hb <-.
    destruct (if isReliable then _ else _) eqn:Et; subst b.
    + cbn in Ha'. rewrite lookup_insert in Ha'. case_decide as E.
      * subst a0. injection Ha' as <-. rewrite Ha in Hr. injection Hr as <-. cbn.
        split; [reflexivity|]. split.
        -- intros _ _. split; [|reflexivity].
           apply accepts_recv_test in Et. unfold accepts in Et.
           destruct isReliable; lia.
        -- intros [Hn|Hn]; [contradiction Hn; reflexivity|discriminate Hn].
      * rewrite Ha in Ha'. injection Ha' as <-.
        split; [reflexivity|]. split; [congruence|reflexivity].
    + rewrite Ha in Ha'. injection Ha' as <-.
      split; [reflexivity|]. split; [discriminate|reflexivity].
Qed.

Lemma sequence_numbers_progress_witness :
  mSendSeq (set_mRecvSeq 1 shared_record) = mSendSeq shared_record
  ∧ (mRefP shared_state 1%nat = Some 2%positive → RBool true = RBool true →
       mRecvSeq shared_record < mRecvSeq (set_mRecvSeq 1 shared_record)
       ∧ mRecvSeq (set_mRecvSeq 1 shared_record) = 1)
  ∧ (mRefP shared_state 1%nat ≠ Some 2%positive ∨ RBool true = RBool false →
       mRecvSeq (set_mRecvSeq 1 shared_record) = mRecvSeq shared_record).
Proof.
  apply (sequence_numbers_progress demoP shared_state
           (OpTestSetRecvSeq 1%nat 1 true) (RBool true)
           (store 2%positive (set_mRecvSeq 1 shared_record) shared_state)
           2%positive shared_record (set_mRecvSeq 1 shared_record)).
  - reflexivity.
  - reflexivity.
  - reflexivity.
Defined.

(** ** The invalid sentinel *)

(** C8: in every reachable state, [Session()] returns a new handle bound to
    the one record of [gInvalidSession], and the state it leaves is again
    reachable; and every handle bound to that record reads identifier 0 and
    is not valid, all such handles reading the same record. *)
Theorem default_handle_is_sentinel P st :
  reachable P st →
  (∃ h st', Session_default st = Some (h, st')
            ∧ h = length (handles st)
            ∧ mRefP st' h = Some sentinel
            ∧ reachable P st')
  ∧ (∃ r0, mId r0 = 0
           ∧ ∀ h, mRefP st h = Some sentinel →
                  deref st h = Some r0 ∧ IsValid st h = Some false).
Proof.
  intros Hreach. pose proof (reachable_Inv P st Hreach) as HI.
  destruct (inv_sentinel st HI) as (r0 & H0 & Hr0 & Hi0). split.
  - pose proof (Session_default_spec st sentinel r0 H0 Hr0) as Hd.
    eexists _, _. split; [exact Hd|]. split; [reflexivity|]. split.
    + apply mRefP_Some. cbn. apply list_lookup_middle. reflexivity.
    + apply (reachable_step P st OpDefault (RHandle (length (handles st)))).
      * exact Hreach.
      * cbn [run]. rewrite Hd. reflexivity.
  - exists r0. split; [exact Hi0|]. intros h Hh.
    assert (Hd : deref st h = Some r0) by (apply (mRefP_deref st h sentinel); assumption).
    split; [exact Hd|]. unfold IsValid. rewrite Hd. cbn.
    rewrite Hi0. reflexivity.
Qed.

Lemma default_handle_is_sentinel_witness :
  (∃ h st', Session_default initial_state = Some (h, st')
            ∧ h = length (handles initial_state)
            ∧ mRefP st' h = Some sentinel
            ∧ reachable demoP st')
  ∧ (∃ r0, mId r0 = 0
           ∧ ∀ h, mRefP initial_state h = Some sentinel →
                  deref initial_state h = Some r0
                  ∧ IsValid initial_state h = Some false).
Proof.
  apply (default_handle_is_sentinel demoP initial_state).
  apply reachable_init.
Defined.

(** ** Ownership of key and certificate *)

(** Copying a handle and destroying the copy gives back the heap and the
    release log as they were. *)
Lemma copy_then_destroy_restores st h a r :
  mRefP st h = Some a → heap st !! a = Some r → 1 ≤ mRefCt r →
  ∃ st1 st2,
    Session_copy h st = Some (length (handles st), st1)
    ∧ Session_destroy (length (handles st)) st1 = Some st2
    ∧ heap st2 = heap st ∧ released st2 = released st
    ∧ mRefP st2 h = Some a.
Proof.
  intros Hh Hr Hc.
  assert (Hlt : (h < length (handles st))%nat).
  { apply mRefP_Some in Hh. eapply lookup_lt_Some, Hh. }
  eexists _, _. split; [apply (Session_copy_spec st h a r Hh Hr)|].
  erewrite (Session_destroy_spec _ (length (handles st)) a
              (set_mRefCt (mRefCt r + 1) r)).
  - cbn. destruct (Z.leb_spec (mRefCt r + 1 - 1) 0) as [?|_]; [lia|].
    split; [reflexivity|]. cbn. repeat split.
    + rewrite insert_insert_eq. apply insert_id. rewrite Hr. f_equal.
      destruct r; unfold set_mRefCt; cbn. f_equal. lia.
    + apply mRefP_Some. cbn.
      rewrite list_lookup_insert_ne by lia.
      apply lookup_app_l_Some, mRefP_Some, Hh.
  - apply mRefP_Some. cbn. apply list_lookup_middle. reflexivity.
  - cbn. apply lookup_insert_eq.
Qed.

(** A call releases a key or a certificate only by destroying the record
    that holds them, when its last handle goes: the log grows by exactly
    what that record pointed to. *)
Lemma released_only_on_destruction P st o res st' :
  Inv st → run P st o = Some (res, st') →
  released st' = released st
  ∨ ∃ a r, heap st !! a = Some r ∧ mRefCt r = 1 ∧ heap st' !! a = None
           ∧ released st' = released st ++ delete_key (mKeyP r) ++ delete_cert (mCertP r).
Proof.
  intros HI H. destruct o; cbn [run] in H.
  - apply ret_handle_Some in H as (h & H & _).
    destruct (inv_sentinel st HI) as (r0 & H0 & Hr0 & _).
    rewrite (Session_default_spec st sentinel r0 H0 Hr0) in H. injection H as _ <-.
    left. reflexivity.
  - apply ret_handle_Some in H as (h & H & _).
    rewrite Session_init_spec in H. injection H as _ <-. left. reflexivity.
  - apply ret_handle_Some in H as (h & H & _).
    rewrite Session_id_spec in H. injection H as _ <-. left. reflexivity.
  - apply ret_handle_Some in H as (h & H & _).
    live_handle HI H st theSessR a r.
    rewrite (Session_copy_spec st theSessR a r Hh Hr) in H. injection H as _ <-.
    left. reflexivity.
  - destruct (mutable h); [|discriminate].
    apply ret_unit_Some in H as [H _].
    live_handle HI H st h a r.
    rewrite (Session_destroy_spec st h a r Hh Hr) in H. injection H as <-.
    pose proof (inv_live st HI a r Hr).
    destruct (Z.leb_spec (mRefCt r - 1) 0); [right|left; reflexivity].
    exists a, r. split; [exact Hr|]. split; [lia|]. cbn.
    split; [apply lookup_delete_eq|reflexivity].
  - destruct (mutable h); [|discriminate].
    apply ret_unit_Some in H as [H _].
    live_handle HI H st h a ra.
    destruct (mRefP st theSessR) as [b|] eqn:Hb;
      [|unfold Session_assign in H; rewrite Hh, Hb in H; discriminate H].
    destruct (Inv_live st theSessR b HI Hb) as [rb Hrb].
    destruct (decide (a = b)) as [<-|Hab].
    + rewrite (Session_assign_same st h theSessR a Hh Hb) in H.
      injection H as <-. left. reflexivity.
    + rewrite (Session_assign_spec st h theSessR a b ra rb Hh Hb Hab Hr Hrb) in H.
      injection H as <-.
      pose proof (inv_live st HI a ra Hr).
      destruct (Z.leb_spec (mRefCt ra - 1) 0); [right|left; reflexivity].
      exists a, ra. split; [exact Hr|]. split; [lia|]. cbn.
      split; [apply lookup_delete_eq|reflexivity].
  - destruct (IsValid st h); [|discriminate]. injection H as _ <-. left. reflexivity.
  - destruct (mutable h); [|discriminate].
    apply ret_unit_Some in H as [H _].
    live_handle HI H st h a r.
    destruct (Z.lt_ge_cases 1 (mRefCt r)) as [Hc|Hc].
    + rewrite (Init_shared _ _ _ _ _ h st a r Hh Hr Hc) in H. injection H as <-.
      left. reflexivity.
    + rewrite (Init_exclusive _ _ _ _ _ h st a r Hh Hr Hc) in H. injection H as <-.
      left. reflexivity.
  - apply ret_unit_Some in H as [H _].
    live_handle HI H st h a r.
    rewrite (Touch_spec now st h a r Hh Hr) in H. injection H as <-. left. reflexivity.
  - apply ret_bool_Some in H as (b & H & _).
    live_handle HI H st h a r.
    rewrite (TestSetRecvSeq_spec theSeq isReliable st h a r Hh Hr) in H.
    cbn zeta in H. injection H as _ <-. left.
    destruct (if isReliable then _ else _); reflexivity.
  - apply ret_bool_Some in H as (b & H & _).
    live_handle HI H st h a r.
    rewrite (TestSetSendSeq_spec theSeq isReliable st h a r Hh Hr) in H.
    cbn zeta in H. injection H as _ <-. left.
    destruct (if isReliable then _ else _); reflexivity.
  - destruct (Dump P verbose st h); [|discriminate]. injection H as _ <-. left. reflexivity.
Qed.

(** C7 (the code departs from it): a session is created owning key 5 and
    certificate 6, re-initialised through its only handle with key 7 and
    certificate 8, and destroyed.  [Init] overwrites [mKeyP] and [mCertP] in
    place without releasing what they pointed to: at the end only the
    sentinel record is alive, key 7 and certificate 8 have been released,
    key 5 and certificate 6 never were and no record holds them. *)
Theorem Init_in_place_leaks P :
  ∃ st, run_all P initial_state leak_program = Some st
    ∧ heap st = heap initial_state
    ∧ handles st = [Some sentinel; None]
    ∧ released st = [KeyObj 7%positive; CertObj 8%positive]
    ∧ (KeyObj 5%positive ∉ released st)
    ∧ (CertObj 6%positive ∉ released st).
Proof.
  eexists. split; [vm_compute; reflexivity|]. cbn.
  split; [reflexivity|]. split; [reflexivity|]. split; [reflexivity|].
  split; intros Hin; repeat (apply elem_of_cons in Hin as [Hin|Hin]; [discriminate|]);
    apply elem_of_nil in Hin; exact Hin.
Qed.

(** ** Diagnostic output *)

(** What the verbose form writes after the key, for a record with a
    certificate: the key again, or nothing at all when there is no key. *)
Lemma Dump_verbose_certificate P st h r c :
  deref st h = Some r → mCertP r = Some c →
  match mKeyP r with
  | Some k => ∃ os, Dump P true st h
                    = Some (((os +:+ show_key P k) +:+ "Certificate: ") +:+ show_key P k)
  | None => Dump P true st h = None
  end.
Proof.
  intros Hr Hc. unfold Dump. rewrite Hr. cbn [mbind option_bind negb].
  rewrite Hc. destruct (mKeyP r) as [k|]; cbn [mbind option_bind]; eauto.
Qed.

(** C9 (the code departs from it): for a record with key 5 and certificate
    6 the verbose dump writes the key, [K5], under the certificate label,
    where the certificate prints as [C6]; for a record with a certificate
    and no key it dereferences the null [mKeyP]. *)
Theorem Dump_certificate_slip :
  Dump demoP true shared_state 1%nat
  = Some ("Session (Id=1)" +:+ endl +:+
          "  LastAction  = t100" +:+ endl +:+
          "  EncryptAttr = (BLOWFISH 1 1 0)" +:+ endl +:+
          "  RecvSeq     = 0" +:+ endl +:+
          "  SendSeq     = 0" +:+ endl +:+
          "  SymmetricKey: K5Certificate: K5")
  ∧ show_cert demoP 6%positive = "C6"
  ∧ Dump demoP true certonly_state 1%nat = None.
Proof. split; [vm_compute; reflexivity|]. split; vm_compute; reflexivity. Qed.

(** ** The scenarios of the specification, run *)

Example static_initialisation :
  Session_id 0 empty_state = Some (gInvalidSession, initial_state).
Proof. vm_compute. reflexivity. Qed.

Example first_identifiers : (generate 3 initial_state).1 = [1; 2; 3].
Proof. reflexivity. Qed.

Example identifiers_wrap :
  (generate 2 (set_gNextSessionId USHRT_MAX initial_state)).1 = [65535; 1].
Proof. reflexivity. Qed.

Example default_handle_invalid :
  run_results demoP initial_state [OpDefault; OpIsValid 1%nat]
  = Some [RHandle 1%nat; RBool false].
Proof. vm_compute. reflexivity. Qed.

Example validity_by_mode :
  run_results demoP initial_state
    [ OpCreate EncryptAttributes_default None None 0 0; OpIsValid 1%nat;
      OpCreate battr None None 0 0; OpIsValid 2%nat;
      OpCreate battr (Some 5%positive) (Some 6%positive) 0 0; OpIsValid 3%nat;
      OpCreate battr (Some 7%positive) (Some 8%positive) 40 0; OpIsValid 4%nat ]
  = Some [ RHandle 1%nat; RBool true; RHandle 2%nat; RBool false;
           RHandle 3%nat; RBool true; RHandle 4%nat; RBool true ].
Proof. vm_compute. reflexivity. Qed.

Example reliable_sequence :
  run_results demoP shared_state
    [ OpTestSetRecvSeq 1%nat 1 true; OpTestSetRecvSeq 1%nat 1 true;
      OpTestSetRecvSeq 2%nat 3 true; OpTestSetRecvSeq 2%nat 2 true ]
  = Some [RBool true; RBool false; RBool false; RBool true].
Proof. vm_compute. reflexivity. Qed.

Example unreliable_sequence :
  run_results demoP shared_state
    [ OpTestSetRecvSeq 1%nat 5 false; OpTestSetRecvSeq 1%nat 3 false;
      OpTestSetRecvSeq 1%nat 6 false ]
  = Some [RBool true; RBool false; RBool true].
Proof. vm_compute. reflexivity. Qed.

Example compact_dump :
  Dump demoP false shared_state 1%nat = Some "(Session: 1 t100)".
Proof. vm_compute. reflexivity. Qed.

(** * Further properties of the handle and record life cycle *)

(** ** Handles and records *)

Lemma refs_pos_lookup a hs : 1 ≤ refs a hs → ∃ h, hs !! h = Some (Some a).
Proof.
  induction hs as [|x hs IH]; simpl; [lia|].
  case_decide as E.
  - intros _. exists 0%nat. cbn. congruence.
  - intros Hp. destruct IH as [h Hh]; [lia|]. exists (S h). exact Hh.
Qed.

Lemma refs_only a hs h :
  hs !! h = Some (Some a) →
  (∀ h', h' ≠ h → hs !! h' ≠ Some (Some a)) →
  refs a hs = 1.
Proof.
  intros Hh Hno.
  pose proof (refs_insert a hs h (Some a) None Hh) as Hi.
  rewrite decide_True in Hi by reflexivity.
  rewrite decide_False in Hi by discriminate.
  pose proof (refs_nonneg a (<[h := None]> hs)) as Hn.
  destruct (Z.eq_dec (refs a (<[h := None]> hs)) 0) as [E|E]; [lia|].
  destruct (refs_pos_lookup a (<[h := None]> hs)) as [h' Hh']; [lia|].
  destruct (decide (h' = h)) as [->|Hne].
  - rewrite list_lookup_insert_eq in Hh' by (eapply lookup_lt_Some, Hh).
    discriminate.
  - rewrite list_lookup_insert_ne in Hh' by congruence.
    contradiction (Hno h' Hne Hh').
Qed.

(** X1: the reference count is exact: in every reachable state the [mRefCt] of
    a live record is the number of live [Session] objects whose [mRefP]
    points to it, and it is at least 1. *)
Theorem refcount_counts_handles P st a r :
  reachable P st → heap st !! a = Some r →
  mRefCt r = refs a (handles st) ∧ 1 ≤ mRefCt r.
Proof.
  intros HI%reachable_Inv Hr. split.
  - rewrite <- (inv_count st HI a). symmetry. apply refcount_at_Some, Hr.
  - apply (inv_live st HI a r Hr).
Qed.

Lemma refcount_counts_handles_witness :
  mRefCt shared_record = refs 2%positive (handles shared_state)
  ∧ 1 ≤ mRefCt shared_record.
Proof.
  apply (refcount_counts_handles demoP shared_state 2%positive shared_record).
  - apply shared_state_reachable.
  - reflexivity.
Defined.

(** X2: in every reachable state no live handle dangles (its [mRefP] points to
    a record that has not been deleted) and no record is orphaned (some
    live handle points to it). *)
Theorem handles_and_records_agree P st :
  reachable P st →
  (∀ h a, mRefP st h = Some a → is_Some (heap st !! a))
  ∧ (∀ a r, heap st !! a = Some r → ∃ h, mRefP st h = Some a).
Proof.
  intros HI%reachable_Inv. split.
  - intros h a Hh. exact (Inv_live st h a HI Hh).
  - intros a r Hr.
    pose proof (inv_count st HI a) as Hc.
    rewrite (refcount_at_Some _ _ _ Hr) in Hc.
    pose proof (inv_live st HI a r Hr) as Hl.
    destruct (refs_pos_lookup a (handles st)) as [h Hh]; [lia|].
    exists h. apply mRefP_Some, Hh.
Qed.

Lemma handles_and_records_agree_witness :
  (∀ h a, mRefP shared_state h = Some a → is_Some (heap shared_state !! a))
  ∧ (∀ a r, heap shared_state !! a = Some r → ∃ h, mRefP shared_state h = Some a).
Proof.
  apply (handles_and_records_agree demoP shared_state).
  apply shared_state_reachable.
Defined.

(** X3: the destructor frees the record exactly when no other handle points to
    it: with another handle on the record, the record stays, one count less,
    and nothing is released; without one, the record is deleted and the log
    grows by its key and certificate, each once. *)
Theorem destroy_frees_iff_last P st h a r :
  reachable P st → mRefP st h = Some a → heap st !! a = Some r →
  ∃ st', Session_destroy h st = Some st'
    ∧ mRefP st' h = None
    ∧ ((∃ h', h' ≠ h ∧ mRefP st h' = Some a) →
         heap st' !! a = Some (set_mRefCt (mRefCt r - 1) r)
         ∧ released st' = released st)
    ∧ ((∀ h', h' ≠ h → mRefP st h' ≠ Some a) →
         heap st' !! a = None
         ∧ released st' = released st ++ delete_key (mKeyP r) ++ delete_cert (mCertP r)).
Proof.
  intros HI%reachable_Inv Hh Hr.
  pose proof (inv_count st HI a) as Hc.
  rewrite (refcount_at_Some _ _ _ Hr) in Hc.
  pose proof Hh as Hh'%mRefP_Some.
  assert (Hlt : (h < length (handles st))%nat) by (eapply lookup_lt_Some, Hh').
  eexists. split; [apply (Session_destroy_spec st h a r Hh Hr)|].
  split; [|split].
  - unfold mRefP. destruct (mRefCt r - 1 <=? 0); cbn;
      rewrite list_lookup_insert_eq by exact Hlt; reflexivity.
  - intros (h' & Hne & Hb%mRefP_Some).
    pose proof (refs_lookup2 a (handles st) h h' ltac:(congruence) Hh' Hb).
    destruct (Z.leb_spec (mRefCt r - 1) 0) as [?|_]; [lia|]. cbn.
    split; [apply lookup_insert_eq|reflexivity].
  - intros Hno.
    assert (refs a (handles st) = 1) as Hone.
    { apply (refs_only a (handles st) h Hh'). intros h' Hne Hb.
      apply (Hno h' Hne), mRefP_Some, Hb. }
    destruct (Z.leb_spec (mRefCt r - 1) 0) as [_|?]; [|lia]. cbn.
    split; [apply lookup_delete_eq|reflexivity].
Qed.

Lemma destroy_frees_iff_last_witness :
  ∃ st', Session_destroy 1%nat shared_state = Some st'
    ∧ mRefP st' 1%nat = None
    ∧ ((∃ h', h' ≠ 1%nat ∧ mRefP shared_state h' = Some 2%positive) →
         heap st' !! 2%positive = Some (set_mRefCt (mRefCt shared_record - 1) shared_record)
         ∧ released st' = released shared_state)
    ∧ ((∀ h', h' ≠ 1%nat → mRefP shared_state h' ≠ Some 2%positive) →
         heap st' !! 2%positive = None
         ∧ released st' = released shared_state
                          ++ delete_key (mKeyP shared_record)
                          ++ delete_cert (mCertP shared_record)).
Proof.
  apply (destroy_frees_iff_last demoP shared_state 1%nat 2%positive shared_record).
  - apply shared_state_reachable.
  - reflexivity.
  - reflexivity.
Defined.

(** What a call does to the handle table: nothing, one new slot at the end,
    or a new content for the slot of its target. *)
Lemma run_handles_shape P st o res st' :
  run P st o = Some (res, st') →
  handles st' = handles st
  ∨ (∃ x, handles st' = handles st ++ [x])
  ∨ (∃ h x, target o = Some h ∧ handles st' = <[h := x]> (handles st)).
Proof.
  intros H. destruct o; cbn [run] in H.
  - apply ret_handle_Some in H as (h & H & _).
    returned H st gInvalidSession a r.
    rewrite (Session_default_spec st a r Hh Hr) in H. injection H as _ <-.
    right. left. eauto.
  - apply ret_handle_Some in H as (h & H & _).
    rewrite Session_init_spec in H. injection H as _ <-. right. left. eauto.
  - apply ret_handle_Some in H as (h & H & _).
    rewrite Session_id_spec in H. injection H as _ <-. right. left. eauto.
  - apply ret_handle_Some in H as (h & H & _).
    returned H st theSessR a r.
    rewrite (Session_copy_spec st theSessR a r Hh Hr) in H. injection H as _ <-.
    right. left. eauto.
  - destruct (mutable h); [|discriminate].
    apply ret_unit_Some in H as [H _].
    returned H st h a r.
    rewrite (Session_destroy_spec st h a r Hh Hr) in H. injection H as <-.
    right. right. exists h, None. split; [reflexivity|].
    destruct (mRefCt r - 1 <=? 0); reflexivity.
  - destruct (mutable h); [|discriminate].
    apply ret_unit_Some in H as [H _].
    destruct (mRefP st h) as [a|] eqn:Hh;
      [|unfold Session_assign in H; rewrite Hh in H; discriminate H].
    destruct (mRefP st theSessR) as [b|] eqn:Hb;
      [|unfold Session_assign in H; rewrite Hh, Hb in H; discriminate H].
    destruct (decide (a = b)) as [<-|Hab].
    { rewrite (Session_assign_same st h theSessR a Hh Hb) in H.
      injection H as <-. left. reflexivity. }
    destruct (heap st !! b) as [rb|] eqn:Hrb;
      [|unfold Session_assign, InterlockedIncrement in H; rewrite Hh, Hb in H;
        cbn in H; rewrite decide_True in H by exact Hab; rewrite Hrb in H;
        discriminate H].
    destruct (heap st !! a) as [ra|] eqn:Hra;
      [|unfold Session_assign, InterlockedIncrement, release in H;
        rewrite Hh, Hb in H; cbn in H; rewrite decide_True in H by exact Hab;
        rewrite Hrb in H; cbn in H; rewrite lookup_insert_ne in H by congruence;
        rewrite Hra in H; discriminate H].
    rewrite (Session_assign_spec st h theSessR a b ra rb Hh Hb Hab Hra Hrb) in H.
    injection H as <-. right. right. exists h, (Some b). split; [reflexivity|].
    destruct (mRefCt ra - 1 <=? 0); reflexivity.
  - destruct (IsValid st h); [|discriminate]. injection H as _ <-. left. reflexivity.
  - destruct (mutable h); [|discriminate].
    apply ret_unit_Some in H as [H _].
    returned H st h a r.
    destruct (Z.lt_ge_cases 1 (mRefCt r)) as [Hc|Hc].
    + rewrite (Init_shared _ _ _ _ _ h st a r Hh Hr Hc) in H. injection H as <-.
      right. right. eauto.
    + rewrite (Init_exclusive _ _ _ _ _ h st a r Hh Hr Hc) in H. injection H as <-.
      left. reflexivity.
  - apply ret_unit_Some in H as [H _].
    returned H st h a r.
    rewrite (Touch_spec now st h a r Hh Hr) in H. injection H as <-. left. reflexivity.
  - apply ret_bool_Some in H as (b & H & _).
    returned H st h a r.
    rewrite (TestSetRecvSeq_spec theSeq isReliable st h a r Hh Hr) in H.
    cbn zeta in H. injection H as _ <-. left.
    destruct (if isReliable then _ else _); reflexivity.
  - apply ret_bool_Some in H as (b & H & _).
    returned H st h a r.
    rewrite (TestSetSendSeq_spec theSeq isReliable st h a r Hh Hr) in H.
    cbn zeta in H. injection H as _ <-. left.
    destruct (if isReliable then _ else _); reflexivity.
  - destruct (Dump P verbose st h); [|discriminate]. injection H as _ <-. left. reflexivity.
Qed.

Lemma run_mRefP_other P st o res st' h :
  run P st o = Some (res, st') → target o ≠ Some h →
  (h < length (handles st))%nat → mRefP st' h = mRefP st h.
Proof.
  intros H Ht Hlt. unfold mRefP.
  destruct (run_handles_shape P st o res st' H) as [->|[[x ->]|(h0 & x & Ht0 & ->)]].
  - reflexivity.
  - rewrite lookup_app_l by exact Hlt. reflexivity.
  - rewrite list_lookup_insert_ne by congruence. reflexivity.
Qed.

(** X4: no call rebinds a handle other than its own target: whatever a call
    does, every existing handle that is not the object of that destructor,
    assignment or [Init] points where it pointed, and no slot of the handle
    table disappears. *)
Theorem run_rebinds_only_target P st o res st' h :
  run P st o = Some (res, st') → target o ≠ Some h →
  (h < length (handles st))%nat →
  mRefP st' h = mRefP st h ∧ (length (handles st) ≤ length (handles st'))%nat.
Proof.
  intros H Ht Hlt. split; [exact (run_mRefP_other P st o res st' h H Ht Hlt)|].
  destruct (run_handles_shape P st o res st' H) as [->|[[x ->]|(h0 & x & _ & ->)]].
  - lia.
  - rewrite length_app. lia.
  - rewrite length_insert. lia.
Qed.

Lemma run_rebinds_only_target_witness :
  mRefP detached_state 2%nat = mRefP shared_state 2%nat
  ∧ (length (handles shared_state) ≤ length (handles detached_state))%nat.
Proof.
  apply (run_rebinds_only_target demoP shared_state
           (OpInit 1%nat battr None None 9 200) RUnit detached_state 2%nat).
  - vm_compute. reflexivity.
  - discriminate.
  - simpl. lia.
Defined.

(** ** Construction followed by destruction *)

(** X5: constructing a session and destroying it frees its record and hands the
    key and the certificate it was given to [delete], each once (a null
    pointer not at all); the heap is as before. *)
Theorem create_then_destroy theAttr theKeyP theCertP theId now st :
  ∃ st1 st2,
    Session_init theAttr theKeyP theCertP theId now st
      = Some (length (handles st), st1)
    ∧ Session_destroy (length (handles st)) st1 = Some st2
    ∧ heap st2 = heap st
    ∧ released st2 = released st ++ delete_key theKeyP ++ delete_cert theCertP
    ∧ mRefP st2 (length (handles st)) = None.
Proof.
  pose proof (fresh_not_live (heap st)) as Hf.
  eexists _, _. split; [apply Session_init_spec|].
  erewrite (Session_destroy_spec _ (length (handles st)) (fresh (dom (heap st))));
    [|apply mRefP_Some; cbn; apply list_lookup_middle; reflexivity
     |cbn; apply lookup_insert_eq].
  cbn. change (1 - 1 <=? 0) with true. cbn iota.
  split; [reflexivity|]. cbn. split; [|split; [reflexivity|]].
  - rewrite delete_insert_eq. apply delete_id, Hf.
  - unfold mRefP. cbn. rewrite list_lookup_insert_eq by (rewrite length_app; cbn; lia).
    reflexivity.
Qed.

(** X6: the private constructor [Session(theId)] owns nothing: the handle it
    makes is valid exactly when [theId] is not 0, and destroying it gives the
    heap back and releases nothing. *)
Theorem search_key_then_destroy theId st :
  ∃ st1 st2,
    Session_id theId st = Some (length (handles st), st1)
    ∧ IsValid st1 (length (handles st)) = Some (negb (theId =? 0))
    ∧ Session_destroy (length (handles st)) st1 = Some st2
    ∧ heap st2 = heap st
    ∧ released st2 = released st.
Proof.
  pose proof (fresh_not_live (heap st)) as Hf.
  assert (Hb : mRefP (mkState
                  (<[fresh (dom (heap st)) := set_mId theId SessionData_new]> (heap st))
                  (handles st ++ [Some (fresh (dom (heap st)))])
                  (gNextSessionId st) (released st)) (length (handles st))
               = Some (fresh (dom (heap st)))).
  { apply mRefP_Some. cbn. apply list_lookup_middle. reflexivity. }
  eexists _, _. split; [apply Session_id_spec|]. split.
  - unfold IsValid, deref. rewrite Hb. cbn. rewrite lookup_insert_eq. cbn.
    destruct (theId =? 0); reflexivity.
  - erewrite (Session_destroy_spec _ (length (handles st)) (fresh (dom (heap st))));
      [|exact Hb|cbn; apply lookup_insert_eq].
    cbn. change (1 - 1 <=? 0) with true. cbn iota.
    split; [reflexivity|]. cbn. split; [|apply app_nil_r].
    rewrite delete_insert_eq. apply delete_id, Hf.
Qed.

(** X7: a copy shares the record: the copy constructor binds the new handle to
    the record of its argument and counts it; what the new handle reads is
    what the old one reads; and destroying the copy gives back the heap and
    the release log as they were, the original still bound. *)
Theorem copy_shares_record P st h a r :
  reachable P st → mRefP st h = Some a → heap st !! a = Some r →
  ∃ st1 st2,
    Session_copy h st = Some (length (handles st), st1)
    ∧ mRefP st1 (length (handles st)) = Some a
    ∧ heap st1 !! a = Some (set_mRefCt (mRefCt r + 1) r)
    ∧ deref st1 (length (handles st)) = deref st1 h
    ∧ Session_destroy (length (handles st)) st1 = Some st2
    ∧ heap st2 = heap st ∧ released st2 = released st
    ∧ mRefP st2 h = Some a.
Proof.
  intros HI%reachable_Inv Hh Hr.
  destruct (copy_then_destroy_restores st h a r Hh Hr (inv_live st HI a r Hr))
    as (st1 & st2 & Hc & Hd & Hheap & Hrel & Hb).
  exists st1, st2. split; [exact Hc|].
  rewrite (Session_copy_spec st h a r Hh Hr) in Hc. injection Hc as <-.
  assert (Hnew : mRefP (mkState (<[a := set_mRefCt (mRefCt r + 1) r]> (heap st))
                          (handles st ++ [Some a]) (gNextSessionId st) (released st))
                   (length (handles st)) = Some a).
  { apply mRefP_Some. cbn. apply list_lookup_middle. reflexivity. }
  assert (Hold : mRefP (mkState (<[a := set_mRefCt (mRefCt r + 1) r]> (heap st))
                          (handles st ++ [Some a]) (gNextSessionId st) (released st))
                   h = Some a).
  { apply mRefP_Some. cbn. apply lookup_app_l_Some, mRefP_Some, Hh. }
  split; [exact Hnew|]. split; [cbn; apply lookup_insert_eq|].
  split; [unfold deref; rewrite Hnew, Hold; reflexivity|].
  repeat split; assumption.
Qed.

Lemma copy_shares_record_witness :
  ∃ st1 st2,
    Session_copy 1%nat shared_state = Some (length (handles shared_state), st1)
    ∧ mRefP st1 (length (handles shared_state)) = Some 2%positive
    ∧ heap st1 !! 2%positive
      = Some (set_mRefCt (mRefCt shared_record + 1) shared_record)
    ∧ deref st1 (length (handles shared_state)) = deref st1 1%nat
    ∧ Session_destroy (length (handles shared_state)) st1 = Some st2
    ∧ heap st2 = heap shared_state ∧ released st2 = released shared_state
    ∧ mRefP st2 1%nat = Some 2%positive.
Proof.
  apply (copy_shares_record demoP shared_state 1%nat 2%positive shared_record).
  - apply shared_state_reachable.
  - reflexivity.
  - reflexivity.
Defined.

(** ** Assignment *)

(** X8: after [h = theSessR] both handles point to the record of [theSessR],
    which is alive and, unless [h] already pointed to it, counts one more
    handle; no other handle is rebound; and when [h] already pointed to that
    record the state is untouched (self-assignment included). *)
Theorem assign_shares_source P st h theSessR a b rb :
  reachable P st →
  mRefP st h = Some a → mRefP st theSessR = Some b → heap st !! b = Some rb →
  ∃ st', Session_assign h theSessR st = Some st'
    ∧ mRefP st' h = Some b ∧ mRefP st' theSessR = Some b
    ∧ heap st' !! b
      = Some (if decide (a = b) then rb else set_mRefCt (mRefCt rb + 1) rb)
    ∧ (∀ h', h' ≠ h → mRefP st' h' = mRefP st h')
    ∧ (a = b → st' = st).
Proof.
  intros HI%reachable_Inv Hh Hb Hrb.
  destruct (decide (a = b)) as [<-|Hab].
  - exists st. split; [apply (Session_assign_same st h theSessR a Hh Hb)|].
    repeat split; auto.
  - destruct (Inv_live st h a HI Hh) as [ra Hra].
    assert (Hlt : (h < length (handles st))%nat).
    { apply mRefP_Some in Hh. eapply lookup_lt_Some, Hh. }
    assert (Hne : h ≠ theSessR) by congruence.
    eexists. split;
      [apply (Session_assign_spec st h theSessR a b ra rb Hh Hb Hab Hra Hrb)|].
    destruct (mRefCt ra - 1 <=? 0); unfold mRefP; cbn.
    + rewrite list_lookup_insert_eq by exact Hlt.
      rewrite list_lookup_insert_ne by exact Hne.
      split; [reflexivity|]. split; [exact Hb|].
      split; [rewrite lookup_delete_ne by exact Hab; apply lookup_insert_eq|].
      split; [|contradiction].
      intros h' Hh'. rewrite list_lookup_insert_ne by congruence. reflexivity.
    + rewrite list_lookup_insert_eq by exact Hlt.
      rewrite list_lookup_insert_ne by exact Hne.
      split; [reflexivity|]. split; [exact Hb|].
      split; [rewrite lookup_insert_ne by exact Hab; apply lookup_insert_eq|].
      split; [|contradiction].
      intros h' Hh'. rewrite list_lookup_insert_ne by congruence. reflexivity.
Qed.

Lemma assign_shares_source_witness :
  ∃ st', Session_assign 1%nat 2%nat detached_state = Some st'
    ∧ mRefP st' 1%nat = Some 2%positive ∧ mRefP st' 2%nat = Some 2%positive
    ∧ heap st' !! 2%positive
      = Some (if decide (3%positive = 2%positive) then set_mRefCt 1 shared_record
              else set_mRefCt (mRefCt (set_mRefCt 1 shared_record) + 1)
                     (set_mRefCt 1 shared_record))
    ∧ (∀ h', h' ≠ 1%nat → mRefP st' h' = mRefP detached_state h')
    ∧ (3%positive = 2%positive → st' = detached_state).
Proof.
  apply (assign_shares_source demoP detached_state 1%nat 2%nat
           3%positive 2%positive (set_mRefCt 1 shared_record)).
  - apply (reachable_step demoP shared_state
             (OpInit 1%nat battr None None 9 200) RUnit).
    + apply shared_state_reachable.
    + vm_compute. reflexivity.
  - reflexivity.
  - reflexivity.
  - reflexivity.
Defined.

(** ** Validity after initialisation *)

(** X9: right after [Init], [IsValid] answers from the arguments alone: [true]
    iff the mode is [ENCRYPT_NONE] or both a key and a certificate were
    supplied.  The identifier cannot spoil it: an explicit one is positive
    and the generator never hands out 0. *)
Theorem IsValid_after_Init theAttr theKeyP theCertP theId now st h a r :
  mRefP st h = Some a → heap st !! a = Some r →
  1 ≤ gNextSessionId st ≤ USHRT_MAX → 0 ≤ theId →
  ∃ st', Init theAttr theKeyP theCertP theId now h st = Some st'
    ∧ IsValid st' h
      = Some (bool_decide (mEncryptMode theAttr = ENCRYPT_NONE)
              || (bool_decide (is_Some theKeyP) && bool_decide (is_Some theCertP))).
Proof.
  intros Hh Hr Hg Hid.
  assert (Hlt : (h < length (handles st))%nat).
  { apply mRefP_Some in Hh. eapply lookup_lt_Some, Hh. }
  assert (Hv : ∀ st' r0,
    deref st' h = Some (init_record theAttr theKeyP theCertP theId now
                          (gNextSessionId st) r0) →
    IsValid st' h
    = Some (bool_decide (mEncryptMode theAttr = ENCRYPT_NONE)
            || (bool_decide (is_Some theKeyP) && bool_decide (is_Some theCertP)))).
  { intros st' r0 Hd. unfold IsValid. rewrite Hd. cbn.
    assert ((if 0 <? theId then theId else gNextSessionId st) ≠ 0) as Hnz.
    { destruct (Z.ltb_spec 0 theId); lia. }
    apply Z.eqb_neq in Hnz. rewrite Hnz. f_equal.
    destruct (decide (mEncryptMode theAttr = ENCRYPT_NONE)) as [E|E].
    - rewrite decide_False by (intros Hn; exact (Hn E)).
      rewrite (bool_decide_eq_true_2 (mEncryptMode theAttr = ENCRYPT_NONE)) by exact E.
      reflexivity.
    - rewrite decide_True by exact E.
      rewrite (bool_decide_eq_false_2 (mEncryptMode theAttr = ENCRYPT_NONE)) by exact E.
      reflexivity. }
  destruct (Z.lt_ge_cases 1 (mRefCt r)) as [Hc|Hc].
  - eexists. split; [apply (Init_shared _ _ _ _ _ h st a r Hh Hr Hc)|].
    apply (Hv _ SessionData_new).
    apply (deref_mkState _ _ _ _ h (fresh (dom (heap st)))).
    + apply list_lookup_insert_eq, Hlt.
    + apply lookup_insert_eq.
  - eexists. split; [apply (Init_exclusive _ _ _ _ _ h st a r Hh Hr Hc)|].
    apply (Hv _ r).
    apply (deref_mkState _ _ _ _ h a).
    + apply mRefP_Some, Hh.
    + apply lookup_insert_eq.
Qed.

Lemma IsValid_after_Init_witness :
  ∃ st', Init battr (Some 7%positive) None 0 200 1%nat shared_state = Some st'
    ∧ IsValid st' 1%nat
      = Some (bool_decide (mEncryptMode battr = ENCRYPT_NONE)
              || (bool_decide (is_Some (Some 7%positive))
                  && bool_decide (is_Some (@None positive)))).
Proof.
  apply (IsValid_after_Init battr (Some 7%positive) None 0 200 shared_state
           1%nat 2%positive shared_record).
  - reflexivity.
  - reflexivity.
  - unfold USHRT_MAX. simpl. lia.
  - lia.
Defined.

(** ** Identifiers of local sessions *)

(** The counter after a call, in terms of [next_id]. *)
Lemma run_counter P st o res st' :
  run P st o = Some (res, st') →
  gNextSessionId st' =
    match o with
    | OpCreate _ _ _ theId _ | OpInit _ _ _ _ theId _ =>
        if 0 <? theId then gNextSessionId st
        else (next_id (gNextSessionId st)).2
    | _ => gNextSessionId st
    end.
Proof.
  intros H. destruct o; cbn [run] in H.
  - apply ret_handle_Some in H as (h & H & _).
    returned H st gInvalidSession a r.
    rewrite (Session_default_spec st a r Hh Hr) in H. injection H as _ <-. reflexivity.
  - apply ret_handle_Some in H as (h & H & _).
    rewrite Session_init_spec in H. injection H as _ <-. reflexivity.
  - apply ret_handle_Some in H as (h & H & _).
    rewrite Session_id_spec in H. injection H as _ <-. reflexivity.
  - apply ret_handle_Some in H as (h & H & _).
    returned H st theSessR a r.
    rewrite (Session_copy_spec st theSessR a r Hh Hr) in H. injection H as _ <-.
    reflexivity.
  - destruct (mutable h); [|discriminate].
    apply ret_unit_Some in H as [H _].
    returned H st h a r.
    rewrite (Session_destroy_spec st h a r Hh Hr) in H. injection H as <-.
    destruct (mRefCt r - 1 <=? 0); reflexivity.
  - destruct (mutable h); [|discriminate].
    apply ret_unit_Some in H as [H _].
    destruct (mRefP st h) as [a|] eqn:Hh;
      [|unfold Session_assign in H; rewrite Hh in H; discriminate H].
    destruct (mRefP st theSessR) as [b|] eqn:Hb;
      [|unfold Session_assign in H; rewrite Hh, Hb in H; discriminate H].
    destruct (decide (a = b)) as [<-|Hab].
    { rewrite (Session_assign_same st h theSessR a Hh Hb) in H.
      injection H as <-. reflexivity. }
    destruct (heap st !! b) as [rb|] eqn:Hrb;
      [|unfold Session_assign, InterlockedIncrement in H; rewrite Hh, Hb in H;
        cbn in H; rewrite decide_True in H by exact Hab; rewrite Hrb in H;
        discriminate H].
    destruct (heap st !! a) as [ra|] eqn:Hra;
      [|unfold Session_assign, InterlockedIncrement, release in H;
        rewrite Hh, Hb in H; cbn in H; rewrite decide_True in H by exact Hab;
        rewrite Hrb in H; cbn in H; rewrite lookup_insert_ne in H by congruence;
        rewrite Hra in H; discriminate H].
    rewrite (Session_assign_spec st h theSessR a b ra rb Hh Hb Hab Hra Hrb) in H.
    injection H as <-. destruct (mRefCt ra - 1 <=? 0); reflexivity.
  - destruct (IsValid st h); [|discriminate]. injection H as _ <-. reflexivity.
  - destruct (mutable h); [|discriminate].
    apply ret_unit_Some in H as [H _].
    returned H st h a r.
    destruct (Z.lt_ge_cases 1 (mRefCt r)) as [Hc|Hc].
    + rewrite (Init_shared _ _ _ _ _ h st a r Hh Hr Hc) in H. injection H as <-.
      reflexivity.
    + rewrite (Init_exclusive _ _ _ _ _ h st a r Hh Hr Hc) in H. injection H as <-.
      reflexivity.
  - apply ret_unit_Some in H as [H _].
    returned H st h a r.
    rewrite (Touch_spec now st h a r Hh Hr) in H. injection H as <-. reflexivity.
  - apply ret_bool_Some in H as (b & H & _).
    returned H st h a r.
    rewrite (TestSetRecvSeq_spec theSeq isReliable st h a r Hh Hr) in H.
    cbn zeta in H. injection H as _ <-.
    destruct (if isReliable then _ else _); reflexivity.
  - apply ret_bool_Some in H as (b & H & _).
    returned H st h a r.
    rewrite (TestSetSendSeq_spec theSeq isReliable st h a r Hh Hr) in H.
    cbn zeta in H. injection H as _ <-.
    destruct (if isReliable then _ else _); reflexivity.
  - destruct (Dump P verbose st h); [|discriminate]. injection H as _ <-. reflexivity.
Qed.

Lemma next_id_successor g :
  1 ≤ g ≤ USHRT_MAX → (next_id g).2 = if g =? USHRT_MAX then 1 else g + 1.
Proof.
  intros Hg. rewrite (next_id_spec g Hg). cbn [snd]. unfold nth_id, USHRT_MAX in *.
  destruct (Z.eqb_spec g 65535) as [->|Hne]; [reflexivity|].
  replace (g - 1 + 1) with g by lia. rewrite Z.mod_small by lia. reflexivity.
Qed.

(** X10: only initialising a local session advances the generator: across any
    call made with the counter in 1..65535, [gNextSessionId] moves exactly
    when the call is a construction or an [Init] without an explicit
    identifier, and then to the next value, 1 after 65535; explicit
    identifiers and every other call leave it alone. *)
Theorem generator_advances_only_for_local_ids P st o res st' :
  run P st o = Some (res, st') →
  1 ≤ gNextSessionId st ≤ USHRT_MAX →
  gNextSessionId st' =
    match o with
    | OpCreate _ _ _ theId _ | OpInit _ _ _ _ theId _ =>
        if 0 <? theId then gNextSessionId st
        else if gNextSessionId st =? USHRT_MAX then 1
        else gNextSessionId st + 1
    | _ => gNextSessionId st
    end.
Proof.
  intros H Hg. rewrite (run_counter P st o res st' H).
  destruct o; try reflexivity.
  - destruct (0 <? theId); [reflexivity|apply next_id_successor, Hg].
  - destruct (0 <? theId); [reflexivity|apply next_id_successor, Hg].
Qed.

Lemma generator_advances_only_for_local_ids_witness :
  gNextSessionId certonly_state = 2.
Proof.
  apply (generator_advances_only_for_local_ids demoP initial_state
           (OpCreate battr None (Some 6%positive) 0 100) (RHandle 1%nat)
           certonly_state).
  - vm_compute. reflexivity.
  - unfold USHRT_MAX. simpl. lia.
Defined.

(** A construction leaves what every existing handle reads as it was. *)
Lemma Session_init_frame theAttr theKeyP theCertP theId now st h st1 h0 r :
  Session_init theAttr theKeyP theCertP theId now st = Some (h, st1) →
  deref st h0 = Some r → deref st1 h0 = Some r.
Proof.
  rewrite Session_init_spec. intros [= <- <-]. unfold deref.
  destruct (mRefP st h0) as [a|] eqn:Ha; [|discriminate]. cbn. intros Hr.
  pose proof (fresh_not_live (heap st)) as Hf.
  apply mRefP_Some in Ha.
  unfold mRefP. cbn. rewrite (lookup_app_l_Some _ _ _ _ Ha). cbn.
  rewrite lookup_insert_ne by congruence. exact Hr.
Qed.

Lemma create_local_frame args : ∀ st hs st' h0 r,
  create_local args st = Some (hs, st') →
  deref st h0 = Some r → deref st' h0 = Some r.
Proof.
  induction args as [|[[[theAttr theKeyP] theCertP] now] rest IH];
    intros st hs st' h0 r H Hr; cbn [create_local] in H.
  - injection H as _ <-. exact Hr.
  - destruct (Session_init theAttr theKeyP theCertP 0 now st) as [[h st1]|] eqn:E1;
      [|discriminate].
    cbn [mbind option_bind] in H.
    destruct (create_local rest st1) as [[hs' st2]|] eqn:E2; [|discriminate].
    cbn [mbind option_bind] in H. injection H as _ <-.
    apply (IH st1 hs' st2 h0 r E2).
    exact (Session_init_frame _ _ _ _ _ st h st1 h0 r E1 Hr).
Qed.

Lemma create_local_ids args : ∀ st,
  1 ≤ gNextSessionId st ≤ USHRT_MAX →
  ∃ hs st', create_local args st = Some (hs, st')
    ∧ id_of st' <$> hs
      = (λ k : nat, Some (nth_id (gNextSessionId st) (Z.of_nat k)))
          <$> seq 0 (length args).
Proof.
  induction args as [|[[[theAttr theKeyP] theCertP] now] rest IH]; intros st Hg.
  - exists [], st. split; reflexivity.
  - cbn [create_local].
    pose proof (Session_init_spec theAttr theKeyP theCertP 0 now st) as E1.
    set (st1 := mkState _ _ _ _) in E1.
    assert (Hg1 : gNextSessionId st1 = nth_id (gNextSessionId st) 1).
    { subst st1. cbn [gNextSessionId]. unfold init_counter.
      change (0 <? 0) with false. cbn iota.
      rewrite next_id_spec by exact Hg. reflexivity. }
    destruct (IH st1) as (hs & st2 & E2 & Hids).
    { rewrite Hg1. apply nth_id_range. }
    exists (length (handles st) :: hs), st2. rewrite E1. cbn. rewrite E2. cbn.
    split; [reflexivity|].
    cbn [length seq fmap list_fmap]. f_equal.
    + unfold id_of.
      rewrite (create_local_frame rest st1 hs st2 (length (handles st))
                 (init_record theAttr theKeyP theCertP 0 now (gNextSessionId st)
                    SessionData_new) E2).
      * cbn. rewrite nth_id_0 by exact Hg. reflexivity.
      * subst st1. apply (deref_mkState _ _ _ _ _ (fresh (dom (heap st)))).
        -- apply list_lookup_middle. reflexivity.
        -- apply lookup_insert_eq.
    + change (list_fmap handle (option Z) (id_of st2) hs) with (id_of st2 <$> hs).
      rewrite Hids, Hg1.
      rewrite <- fmap_S_seq, <- list_fmap_compose.
      apply list_fmap_ext. intros _ k _. cbn.
      rewrite nth_id_shift. do 2 f_equal. lia.
Qed.

(** X11: up to 65535 local sessions constructed in a row all get different
    identifiers, none of them 0, and every one of the handles still reads
    its identifier at the end: the [k]-th reads what the [k]-th call of the
    generator returns. *)
Theorem local_sessions_distinct_ids args st :
  1 ≤ gNextSessionId st ≤ USHRT_MAX → (length args ≤ period)%nat →
  ∃ hs st', create_local args st = Some (hs, st')
    ∧ id_of st' <$> hs = Some <$> (generate (length args) st).1
    ∧ NoDup (id_of st' <$> hs)
    ∧ Forall (λ i, i ≠ Some 0) (id_of st' <$> hs).
Proof.
  intros Hg Hn. destruct (create_local_ids args st Hg) as (hs & st' & E & Hids).
  exists hs, st'. split; [exact E|].
  rewrite generate_closed_form by exact Hg. cbn [fst].
  rewrite <- list_fmap_compose. split; [exact Hids|].
  rewrite Hids. split.
  - apply NoDup_fmap_2_strong; [|apply NoDup_seq].
    intros j k Hj%elem_of_seq Hk%elem_of_seq [= Ejk].
    pose proof of_nat_period.
    apply Nat2Z.inj, (nth_id_inj (gNextSessionId st)); [lia..|exact Ejk].
  - apply Forall_fmap, Forall_forall. intros k _. cbn.
    pose proof (nth_id_range (gNextSessionId st) (Z.of_nat k)).
    intros [= E0]. lia.
Qed.

Lemma local_sessions_distinct_ids_witness :
  ∃ hs st',
    create_local [(battr, Some 5%positive, Some 6%positive, 100);
                  (EncryptAttributes_default, None, None, 200)] initial_state
      = Some (hs, st')
    ∧ id_of st' <$> hs = Some <$> (generate 2 initial_state).1
    ∧ NoDup (id_of st' <$> hs)
    ∧ Forall (λ i, i ≠ Some 0) (id_of st' <$> hs).
Proof.
  apply (local_sessions_distinct_ids
           [(battr, Some 5%positive, Some 6%positive, 100);
            (EncryptAttributes_default, None, None, 200)] initial_state).
  - unfold USHRT_MAX. simpl. lia.
  - unfold period, USHRT_MAX. simpl. lia.
Defined.

(** ** What a kept handle observes *)

Lemma evolves_refl r : evolves r r.
Proof. unfold evolves. repeat split; lia. Qed.

Lemma evolves_trans r1 r2 r3 : evolves r1 r2 → evolves r2 r3 → evolves r1 r3.
Proof.
  unfold evolves. intros (?&?&?&?&?&?&?) (?&?&?&?&?&?&?).
  repeat split; try congruence; lia.
Qed.

Ltac evolves_field := unfold evolves; cbn; repeat split; lia.

(** The record at [a], looked up after one record was overwritten. *)
Lemma evolves_insert (hp : gmap positive SessionData) a0 r0' a r :
  hp !! a = Some r → (a0 = a → evolves r r0') →
  ∃ r', <[a0 := r0']> hp !! a = Some r' ∧ evolves r r'.
Proof.
  intros Hr He. rewrite lookup_insert. case_decide as E.
  - exists r0'. split; [reflexivity|apply He, E].
  - exists r. split; [exact Hr|apply evolves_refl].
Qed.

(** One call, seen through a handle it does not target. *)
Lemma step_evolves P st o res st' h a r :
  Inv st → run P st o = Some (res, st') → target o ≠ Some h →
  mRefP st h = Some a → heap st !! a = Some r →
  mRefP st' h = Some a ∧ ∃ r', heap st' !! a = Some r' ∧ evolves r r'.
Proof.
  intros HI H Ht Hb Hra.
  assert (Hlt : (h < length (handles st))%nat).
  { apply mRefP_Some in Hb. eapply lookup_lt_Some, Hb. }
  split; [rewrite (run_mRefP_other P st o res st' h H Ht Hlt); exact Hb|].
  assert (Hshare : ∀ h0, h0 ≠ h → mRefP st h0 = Some a → 2 ≤ mRefCt r).
  { intros h0 Hne H0.
    pose proof (inv_count st HI a) as Hc. rewrite (refcount_at_Some _ _ _ Hra) in Hc.
    rewrite Hc. apply (refs_lookup2 a (handles st) h0 h Hne);
      apply mRefP_Some; assumption. }
  pose proof (fresh_not_live (heap st)) as Hf.
  destruct o; cbn [run target] in H, Ht.
  - apply ret_handle_Some in H as (h1 & H & _).
    returned H st gInvalidSession a0 r0.
    rewrite (Session_default_spec st a0 r0 Hh Hr) in H. injection H as _ <-. cbn.
    apply evolves_insert; [exact Hra|]. intros ->.
    rewrite Hr in Hra. injection Hra as ->. evolves_field.
  - apply ret_handle_Some in H as (h1 & H & _).
    rewrite Session_init_spec in H. injection H as _ <-. cbn.
    apply evolves_insert; [exact Hra|]. intros E. congruence.
  - apply ret_handle_Some in H as (h1 & H & _).
    rewrite Session_id_spec in H. injection H as _ <-. cbn.
    apply evolves_insert; [exact Hra|]. intros E. congruence.
  - apply ret_handle_Some in H as (h1 & H & _).
    returned H st theSessR a0 r0.
    rewrite (Session_copy_spec st theSessR a0 r0 Hh Hr) in H. injection H as _ <-. cbn.
    apply evolves_insert; [exact Hra|]. intros ->.
    rewrite Hr in Hra. injection Hra as ->. evolves_field.
  - destruct (mutable h0); [|discriminate].
    apply ret_unit_Some in H as [H _].
    returned H st h0 a0 r0.
    rewrite (Session_destroy_spec st h0 a0 r0 Hh Hr) in H. injection H as <-.
    assert (Hne : h0 ≠ h) by congruence.
    destruct (decide (a0 = a)) as [->|Ha].
    + rewrite Hr in Hra. injection Hra as ->.
      pose proof (Hshare h0 Hne Hh).
      destruct (Z.leb_spec (mRefCt r - 1) 0) as [?|_]; [lia|]. cbn.
      apply evolves_insert; [exact Hr|]. intros _. evolves_field.
    + destruct (mRefCt r0 - 1 <=? 0); cbn.
      * exists r. rewrite lookup_delete_ne by exact Ha.
        split; [exact Hra|apply evolves_refl].
      * apply evolves_insert; [exact Hra|]. intros E. contradiction.
  - destruct (mutable h0); [|discriminate].
    apply ret_unit_Some in H as [H _].
    assert (Hne : h0 ≠ h) by congruence.
    live_handle HI H st h0 a0 ra.
    destruct (mRefP st theSessR) as [b|] eqn:Hsb;
      [|unfold Session_assign in H; rewrite Hh, Hsb in H; discriminate H].
    destruct (Inv_live st theSessR b HI Hsb) as [rb Hrb].
    destruct (decide (a0 = b)) as [<-|Hab].
    { rewrite (Session_assign_same st h0 theSessR a0 Hh Hsb) in H.
      injection H as <-. exists r. split; [exact Hra|apply evolves_refl]. }
    rewrite (Session_assign_spec st h0 theSessR a0 b ra rb Hh Hsb Hab Hr Hrb) in H.
    injection H as <-.
    assert (Hmid : ∃ r1, <[b := set_mRefCt (mRefCt rb + 1) rb]> (heap st) !! a = Some r1
                         ∧ evolves r r1).
    { apply evolves_insert; [exact Hra|]. intros ->.
      rewrite Hrb in Hra. injection Hra as ->. evolves_field. }
    destruct Hmid as (r1 & Hr1 & He1).
    destruct (decide (a0 = a)) as [->|Ha].
    + rewrite Hr in Hra. injection Hra as ->.
      pose proof (Hshare h0 Hne Hh).
      destruct (Z.leb_spec (mRefCt r - 1) 0) as [?|_]; [lia|]. cbn.
      exists (set_mRefCt (mRefCt r - 1) r).
      split; [apply lookup_insert_eq|evolves_field].
    + destruct (mRefCt ra - 1 <=? 0); cbn.
      * exists r1. rewrite lookup_delete_ne by exact Ha. auto.
      * exists r1. rewrite lookup_insert_ne by exact Ha. auto.
  - destruct (IsValid st h0); [|discriminate]. injection H as _ <-.
    exists r. split; [exact Hra|apply evolves_refl].
  - destruct (mutable h0); [|discriminate].
    apply ret_unit_Some in H as [H _].
    assert (Hne : h0 ≠ h) by congruence.
    live_handle HI H st h0 a0 r0.
    destruct (Z.lt_ge_cases 1 (mRefCt r0)) as [Hc|Hc].
    + rewrite (Init_shared _ _ _ _ _ h0 st a0 r0 Hh Hr Hc) in H. injection H as <-.
      cbn. rewrite lookup_insert_ne by congruence.
      apply evolves_insert; [exact Hra|]. intros ->.
      rewrite Hr in Hra. injection Hra as ->. evolves_field.
    + rewrite (Init_exclusive _ _ _ _ _ h0 st a0 r0 Hh Hr Hc) in H. injection H as <-.
      cbn. apply evolves_insert; [exact Hra|]. intros ->.
      rewrite Hr in Hra. injection Hra as ->.
      pose proof (Hshare h0 Hne Hh). lia.
  - apply ret_unit_Some in H as [H _].
    returned H st h0 a0 r0.
    rewrite (Touch_spec now st h0 a0 r0 Hh Hr) in H. injection H as <-. cbn.
    apply evolves_insert; [exact Hra|]. intros ->.
    rewrite Hr in Hra. injection Hra as ->. evolves_field.
  - apply ret_bool_Some in H as (b & H & _).
    returned H st h0 a0 r0.
    rewrite (TestSetRecvSeq_spec theSeq isReliable st h0 a0 r0 Hh Hr) in H.
    cbn zeta in H. injection H as _ <-.
    destruct (if isReliable then _ else _) eqn:Et;
      [|exists r; split; [exact Hra|apply evolves_refl]].
    cbn. apply evolves_insert; [exact Hra|]. intros ->.
    rewrite Hr in Hra. injection Hra as ->.
    apply accepts_recv_test in Et. unfold accepts in Et.
    unfold evolves. cbn. repeat split; try lia. destruct isReliable; lia.
  - apply ret_bool_Some in H as (b & H & _).
    returned H st h0 a0 r0.
    rewrite (TestSetSendSeq_spec theSeq isReliable st h0 a0 r0 Hh Hr) in H.
    cbn zeta in H. injection H as _ <-.
    destruct (if isReliable then _ else _) eqn:Et;
      [|exists r; split; [exact Hra|apply evolves_refl]].
    cbn. apply evolves_insert; [exact Hra|]. intros ->.
    rewrite Hr in Hra. injection Hra as ->.
    apply accepts_recv_test in Et. unfold accepts in Et.
    unfold evolves. cbn. repeat split; try lia. destruct isReliable; lia.
  - destruct (Dump P verbose st h0); [|discriminate]. injection H as _ <-.
    exists r. split; [exact Hra|apply evolves_refl].
Qed.

(** A whole program, seen through a handle it never targets. *)
Lemma run_all_evolves P os : ∀ st st' h a r,
  Inv st → run_all P st os = Some st' → untouched h os →
  mRefP st h = Some a → heap st !! a = Some r →
  Inv st' ∧ mRefP st' h = Some a ∧ ∃ r', heap st' !! a = Some r' ∧ evolves r r'.
Proof.
  induction os as [|o os IH]; intros st st' h a r HI H Hu Hb Hr; cbn [run_all] in H.
  - injection H as <-. split; [exact HI|]. split; [exact Hb|].
    exists r. split; [exact Hr|apply evolves_refl].
  - destruct (run P st o) as [[res st1]|] eqn:Ho; [|discriminate].
    cbn [mbind option_bind] in H.
    apply Forall_cons in Hu as [Ht Hu].
    destruct (step_evolves P st o res st1 h a r HI Ho Ht Hb Hr)
      as (Hb1 & r1 & Hr1 & He1).
    destruct (IH st1 st' h a r1 (run_Inv P st o res st1 HI Ho) H Hu Hb1 Hr1)
      as (HI' & Hb' & r' & Hr' & He').
    split; [exact HI'|]. split; [exact Hb'|].
    exists r'. split; [exact Hr'|]. exact (evolves_trans r r1 r' He1 He').
Qed.

Lemma TestSetSeq_accepted (P : Printers) recv theSeq isReliable h st st1 :
  Inv st → TestSetSeq recv theSeq isReliable h st = Some (true, st1) →
  ∃ a r, mRefP st1 h = Some a ∧ heap st1 !! a = Some r ∧ Inv st1
         ∧ theSeq = (if recv then mRecvSeq r else mSendSeq r).
Proof.
  intros HI H. destruct recv; cbn [TestSetSeq] in H.
  - assert (Hrun : run P st (OpTestSetRecvSeq h theSeq isReliable)
                   = Some (RBool true, st1)) by (cbn [run]; rewrite H; reflexivity).
    pose proof (run_Inv P st _ _ st1 HI Hrun) as HI1.
    returned H st h a r.
    rewrite (TestSetRecvSeq_spec theSeq isReliable st h a r Hh Hr) in H.
    cbn zeta in H. injection H as Hb <-. rewrite Hb.
    exists a, (set_mRecvSeq theSeq r). rewrite Hb in HI1.
    split; [exact Hh|]. split; [apply lookup_insert_eq|]. split; [exact HI1|reflexivity].
  - assert (Hrun : run P st (OpTestSetSendSeq h theSeq isReliable)
                   = Some (RBool true, st1)) by (cbn [run]; rewrite H; reflexivity).
    pose proof (run_Inv P st _ _ st1 HI Hrun) as HI1.
    returned H st h a r.
    rewrite (TestSetSendSeq_spec theSeq isReliable st h a r Hh Hr) in H.
    cbn zeta in H. injection H as Hb <-. rewrite Hb.
    exists a, (set_mSendSeq theSeq r). rewrite Hb in HI1.
    split; [exact Hh|]. split; [apply lookup_insert_eq|]. split; [exact HI1|reflexivity].
Qed.

(** X12: no replay: once a sequence number has been accepted through a handle,
    then, whatever the program does meanwhile through this or any other
    handle (short of destroying, assigning to or re-initialising this one),
    a test-and-set in the same direction, through it or through any handle
    that shares its record, rejects that number and every smaller one,
    reliable or not, and changes nothing. *)
Theorem accepted_sequence_not_accepted_again
    P recv st h theSeq isReliable st1 os st2 h' theSeq' isReliable' :
  reachable P st →
  TestSetSeq recv theSeq isReliable h st = Some (true, st1) →
  untouched h os → run_all P st1 os = Some st2 →
  mRefP st2 h' = mRefP st2 h → theSeq' ≤ theSeq →
  TestSetSeq recv theSeq' isReliable' h' st2 = Some (false, st2).
Proof.
  intros HI%reachable_Inv Hacc Hu Hrun Hsame Hle.
  destruct (TestSetSeq_accepted P recv theSeq isReliable h st st1 HI Hacc)
    as (a & r & Hb & Hr & HI1 & Hseq).
  destruct (run_all_evolves P os st1 st2 h a r HI1 Hrun Hu Hb Hr)
    as (_ & Hb2 & r2 & Hr2 & He).
  rewrite Hb2 in Hsame.
  destruct He as (_ & _ & _ & _ & _ & Hrecv & Hsend).
  destruct recv; cbn [TestSetSeq].
  - rewrite (TestSetRecvSeq_spec theSeq' isReliable' st2 h' a r2 Hsame Hr2). cbn zeta.
    destruct isReliable'.
    + destruct (Z.eqb_spec (mRecvSeq r2 + 1) theSeq'); [lia|reflexivity].
    + destruct (Z.ltb_spec (mRecvSeq r2) theSeq'); [lia|reflexivity].
  - rewrite (TestSetSendSeq_spec theSeq' isReliable' st2 h' a r2 Hsame Hr2). cbn zeta.
    destruct isReliable'.
    + destruct (Z.eqb_spec (mSendSeq r2 + 1) theSeq'); [lia|reflexivity].
    + destruct (Z.ltb_spec (mSendSeq r2) theSeq'); [lia|reflexivity].
Qed.

Lemma accepted_sequence_not_accepted_again_witness :
  TestSetSeq true 5 true 3%nat later_state = Some (false, later_state).
Proof.
  apply (accepted_sequence_not_accepted_again demoP true shared_state 1%nat
           5 false accepted_state later_program later_state 3%nat 5 true).
  - apply shared_state_reachable.
  - reflexivity.
  - repeat constructor; discriminate.
  - vm_compute. reflexivity.
  - reflexivity.
  - lia.
Defined.

(** X13: what [Init] fixed stays fixed: while a handle is neither destroyed,
    assigned to nor re-initialised, the identifier, the remote flag, the
    attributes, the key and the certificate it reads do not change, whatever
    is done through other handles — in particular [IsValid] keeps its
    answer. *)
Theorem identity_fixed_while_handle_kept P st os st' h r :
  reachable P st → untouched h os → run_all P st os = Some st' →
  deref st h = Some r →
  ∃ r', deref st' h = Some r'
    ∧ mId r' = mId r ∧ mIsRemote r' = mIsRemote r
    ∧ mEncryptAttr r' = mEncryptAttr r
    ∧ mKeyP r' = mKeyP r ∧ mCertP r' = mCertP r
    ∧ IsValid st' h = IsValid st h.
Proof.
  intros HI%reachable_Inv Hu Hrun Hd.
  unfold deref in Hd. destruct (mRefP st h) as [a|] eqn:Hb; [|discriminate].
  cbn in Hd.
  destruct (run_all_evolves P os st st' h a r HI Hrun Hu Hb Hd)
    as (_ & Hb' & r' & Hr' & E1 & E2 & E3 & E4 & E5 & _).
  assert (Hd' : deref st' h = Some r') by (apply (mRefP_deref st' h a); assumption).
  exists r'. split; [exact Hd'|]. repeat (split; [assumption|]).
  unfold IsValid. rewrite Hd'. unfold deref. rewrite Hb. cbn. rewrite Hd. cbn.
  rewrite E1, E3, E4, E5. reflexivity.
Qed.

Lemma identity_fixed_while_handle_kept_witness :
  ∃ r', deref later_state 1%nat = Some r'
    ∧ mId r' = mId (set_mRecvSeq 5 shared_record)
    ∧ mIsRemote r' = mIsRemote (set_mRecvSeq 5 shared_record)
    ∧ mEncryptAttr r' = mEncryptAttr (set_mRecvSeq 5 shared_record)
    ∧ mKeyP r' = mKeyP (set_mRecvSeq 5 shared_record)
    ∧ mCertP r' = mCertP (set_mRecvSeq 5 shared_record)
    ∧ IsValid later_state 1%nat = IsValid accepted_state 1%nat.
Proof.
  apply (identity_fixed_while_handle_kept demoP accepted_state later_program
           later_state 1%nat (set_mRecvSeq 5 shared_record)).
  - apply (reachable_step demoP shared_state (OpTestSetRecvSeq 1%nat 5 false)
             (RBool true)).
    + apply shared_state_reachable.
    + vm_compute. reflexivity.
  - repeat constructor; discriminate.
  - vm_compute. reflexivity.
  - reflexivity.
Defined.

(** ** Diagnostic output, continued *)

Lemma clobber_last_snoc s c :
  clobber_last (s +:+ String c EmptyString) = Some s.
Proof.
  induction s as [|c1 s IH]; [reflexivity|].
  destruct s as [|c2 s]; [reflexivity|].
  change (clobber_last (String c1 (String c2 (s +:+ String c EmptyString)))
          = Some (String c1 (String c2 s))).
  change (String c1 <$> clobber_last (String c2 s +:+ String c EmptyString)
          = Some (String c1 (String c2 s))).
  rewrite IH. reflexivity.
Qed.

(** X14: the compact form never touches the key or the certificate: whenever
    [ctime] returns a text ending in a newline, it writes the identifier
    and that text without the newline, between [(Session: ] and [)]; when
    [ctime] returns the empty text, the write that clobbers the newline
    falls before the buffer. *)
Theorem Dump_compact_form P st h r :
  deref st h = Some r →
  (∀ body, ctime P (mLastAction r) = body +:+ endl →
     Dump P false st h
     = Some ("(Session: " +:+ show_ushort (mId r) +:+ " " +:+ body +:+ ")"))
  ∧ (ctime P (mLastAction r) = EmptyString → Dump P false st h = None).
Proof.
  intros Hd. unfold Dump. rewrite Hd. cbn [mbind option_bind negb]. split.
  - intros body ->. unfold endl. rewrite clobber_last_snoc. reflexivity.
  - intros ->. reflexivity.
Qed.

Lemma Dump_compact_form_witness :
  (∀ body, ctime demoP (mLastAction shared_record) = body +:+ endl →
     Dump demoP false shared_state 1%nat
     = Some ("(Session: " +:+ show_ushort (mId shared_record) +:+ " "
             +:+ body +:+ ")"))
  ∧ (ctime demoP (mLastAction shared_record) = EmptyString →
     Dump demoP false shared_state 1%nat = None).
Proof.
  apply (Dump_compact_form demoP shared_state 1%nat shared_record).
  reflexivity.
Defined.

(** X15: the verbose form runs to its end exactly when the record has no
    certificate or has a key; with a certificate and no key it dereferences
    the null [mKeyP]. *)
Theorem Dump_verbose_defined_iff P st h r :
  deref st h = Some r →
  (is_Some (Dump P true st h) ↔ mCertP r = None ∨ is_Some (mKeyP r)).
Proof.
  intros Hd. unfold Dump. rewrite Hd. cbn [mbind option_bind negb].
  destruct (mCertP r) as [c|], (mKeyP r) as [k|]; cbn [mbind option_bind].
  - split; eauto.
  - split.
    + intros [x Hx]. discriminate Hx.
    + intros [Hn|[x Hx]]; discriminate.
  - split; eauto.
  - split; eauto.
Qed.

Lemma Dump_verbose_defined_iff_witness :
  is_Some (Dump demoP true shared_state 1%nat)
  ↔ mCertP shared_record = None ∨ is_Some (mKeyP shared_record).
Proof.
  apply (Dump_verbose_defined_iff demoP shared_state 1%nat shared_record).
  reflexivity.
Defined.

(** ** Initialising a default-constructed handle *)

(** X16: [Init] through a default-constructed handle never initialises the shared
    sentinel: the handle is moved to a record of its own — at an address
    that held no record before, alive afterwards with count 1, and to which
    no other handle is bound — and the record of [gInvalidSession] keeps
    every field but its count, identifier 0 included. *)
Theorem Init_leaves_sentinel P theAttr theKeyP theCertP theId now st h r0 :
  reachable P st → h ≠ gInvalidSession →
  mRefP st h = Some sentinel → heap st !! sentinel = Some r0 →
  ∃ st' a' r', Init theAttr theKeyP theCertP theId now h st = Some st'
    ∧ mRefP st' h = Some a' ∧ a' ≠ sentinel
    ∧ heap st !! a' = None
    ∧ heap st' !! a' = Some r' ∧ mRefCt r' = 1
    ∧ (∀ h', h' ≠ h → mRefP st' h' ≠ Some a')
    ∧ mRefP st' gInvalidSession = Some sentinel
    ∧ heap st' !! sentinel = Some (set_mRefCt (mRefCt r0 - 1) r0)
    ∧ IsValid st' gInvalidSession = Some false.
Proof.
  intros HI%reachable_Inv Hne Hh Hr0.
  destruct (inv_sentinel st HI) as (r0' & H0 & Hr0' & Hi0).
  rewrite Hr0 in Hr0'. injection Hr0' as <-.
  pose proof (Inv_sentinel_shared st h sentinel r0 HI Hne H0 Hh Hr0) as Hc.
  pose proof (fresh_not_live (heap st)) as Hf.
  assert (Hlt : (h < length (handles st))%nat).
  { apply mRefP_Some in Hh. eapply lookup_lt_Some, Hh. }
  assert (Hfs : fresh (dom (heap st)) ≠ sentinel) by congruence.
  eexists _, (fresh (dom (heap st))), _.
  split; [apply (Init_shared _ _ _ _ _ h st sentinel r0 Hh Hr0); lia|].
  assert (Hs : <[fresh (dom (heap st)) :=
                   init_record theAttr theKeyP theCertP theId now (gNextSessionId st)
                     SessionData_new]>
                 (<[sentinel := set_mRefCt (mRefCt r0 - 1) r0]> (heap st)) !! sentinel
               = Some (set_mRefCt (mRefCt r0 - 1) r0)).
  { rewrite lookup_insert_ne by exact Hfs. apply lookup_insert_eq. }
  split; [apply mRefP_Some; cbn; apply list_lookup_insert_eq, Hlt|].
  split; [exact Hfs|]. split; [exact Hf|].
  split; [cbn; apply lookup_insert_eq|]. split; [reflexivity|].
  split.
  { intros h' Hh' Hb. unfold mRefP in Hb. cbn in Hb.
    rewrite list_lookup_insert_ne in Hb by congruence.
    destruct (Inv_live st h' (fresh (dom (heap st))) HI Hb) as [x Hx].
    congruence. }
  assert (H0' : ∀ hp g rel,
    mRefP (mkState hp (<[h := Some (fresh (dom (heap st)))]> (handles st)) g rel)
      gInvalidSession = Some sentinel).
  { intros hp g rel. rewrite mRefP_rebind_other by exact Hne. exact H0. }
  split; [apply H0'|]. split; [exact Hs|].
  unfold IsValid, deref. rewrite H0'. cbn [mbind option_bind heap]. rewrite Hs.
  cbn. rewrite Hi0. reflexivity.
Qed.

Lemma Init_leaves_sentinel_witness :
  ∃ st' a' r',
    Init battr None None 0 100 1%nat defaulted_state = Some st'
    ∧ mRefP st' 1%nat = Some a' ∧ a' ≠ sentinel
    ∧ heap defaulted_state !! a' = None
    ∧ heap st' !! a' = Some r' ∧ mRefCt r' = 1
    ∧ (∀ h', h' ≠ 1%nat → mRefP st' h' ≠ Some a')
    ∧ mRefP st' gInvalidSession = Some sentinel
    ∧ heap st' !! sentinel
      = Some (set_mRefCt (mRefCt (set_mRefCt 2 (set_mId 0 SessionData_new)) - 1)
                (set_mRefCt 2 (set_mId 0 SessionData_new)))
    ∧ IsValid st' gInvalidSession = Some false.
Proof.
  apply (Init_leaves_sentinel demoP battr None None 0 100 defaulted_state
           1%nat (set_mRefCt 2 (set_mId 0 SessionData_new))).
  - apply (reachable_step demoP initial_state OpDefault (RHandle 1%nat)).
    + apply reachable_init.
    + vm_compute. reflexivity.
  - discriminate.
  - reflexivity.
  - reflexivity.
Defined.

(** ** Calls on live handles are defined *)

(** X17: reference counting keeps every call defined: in a reachable state, a
    call through handles that have not been destroyed, which does not try
    to destroy, assign to or re-initialise [gInvalidSession] and is not a
    [Dump], never meets a deleted record and returns. *)
Theorem run_defined_on_live_handles P st o :
  reachable P st →
  Forall (λ h, is_Some (mRefP st h)) (uses o) →
  target o ≠ Some gInvalidSession → is_dump o = false →
  is_Some (run P st o).
Proof.
  intros HI%reachable_Inv Hu Ht Hd.
  assert (Hm : ∀ h, target o = Some h → mutable h = true).
  { intros h Hh. unfold mutable. apply bool_decide_eq_true_2. congruence. }
  destruct o; cbn [run uses target is_dump] in *; try discriminate.
  - destruct (inv_sentinel st HI) as (r0 & H0 & Hr0 & _).
    rewrite (Session_default_spec st sentinel r0 H0 Hr0). cbn. eauto.
  - rewrite Session_init_spec. cbn. eauto.
  - rewrite Session_id_spec. cbn. eauto.
  - apply Forall_cons in Hu as [[a Ha] _].
    destruct (Inv_live st theSessR a HI Ha) as [r Hr].
    rewrite (Session_copy_spec st theSessR a r Ha Hr). cbn. eauto.
  - apply Forall_cons in Hu as [[a Ha] _].
    destruct (Inv_live st h a HI Ha) as [r Hr].
    rewrite (Hm h eq_refl), (Session_destroy_spec st h a r Ha Hr). cbn. eauto.
  - apply Forall_cons in Hu as [[a Ha] [[b Hb] _]%Forall_cons].
    destruct (Inv_live st h a HI Ha) as [ra Hra].
    destruct (Inv_live st theSessR b HI Hb) as [rb Hrb].
    rewrite (Hm h eq_refl).
    destruct (decide (a = b)) as [<-|Hab].
    + rewrite (Session_assign_same st h theSessR a Ha Hb). cbn. eauto.
    + rewrite (Session_assign_spec st h theSessR a b ra rb Ha Hb Hab Hra Hrb).
      cbn. eauto.
  - apply Forall_cons in Hu as [[a Ha] _].
    destruct (Inv_live st h a HI Ha) as [r Hr].
    unfold IsValid. rewrite (mRefP_deref st h a r Ha Hr). cbn.
    destruct (mId r =? 0); cbn; eauto.
  - apply Forall_cons in Hu as [[a Ha] _].
    destruct (Inv_live st h a HI Ha) as [r Hr].
    rewrite (Hm h eq_refl).
    destruct (Z.lt_ge_cases 1 (mRefCt r)) as [Hc|Hc].
    + rewrite (Init_shared _ _ _ _ _ h st a r Ha Hr Hc). cbn. eauto.
    + rewrite (Init_exclusive _ _ _ _ _ h st a r Ha Hr Hc). cbn. eauto.
  - apply Forall_cons in Hu as [[a Ha] _].
    destruct (Inv_live st h a HI Ha) as [r Hr].
    rewrite (Touch_spec now st h a r Ha Hr). cbn. eauto.
  - apply Forall_cons in Hu as [[a Ha] _].
    destruct (Inv_live st h a HI Ha) as [r Hr].
    rewrite (TestSetRecvSeq_spec theSeq isReliable st h a r Ha Hr). cbn. eauto.
  - apply Forall_cons in Hu as [[a Ha] _].
    destruct (Inv_live st h a HI Ha) as [r Hr].
    rewrite (TestSetSendSeq_spec theSeq isReliable st h a r Ha Hr). cbn. eauto.
Qed.

Lemma run_defined_on_live_handles_witness :
  is_Some (run demoP shared_state (OpAssign 2%nat gInvalidSession)).
Proof.
  apply (run_defined_on_live_handles demoP shared_state
           (OpAssign 2%nat gInvalidSession)).
  - apply shared_state_reachable.
  - repeat constructor; cbn; eauto.
  - discriminate.
  - reflexivity.
Defined.

(** ** No object is released twice *)

Lemma owned_insert_fresh (hp : gmap positive SessionData) a r :
  hp !! a = None → owned (<[a := r]> hp) ≡ₚ owned_by r ++ owned hp.
Proof.
  intros Hf. unfold owned. rewrite (map_to_list_insert hp a r Hf).
  rewrite bind_cons. reflexivity.
Qed.

Lemma owned_delete (hp : gmap positive SessionData) a r :
  hp !! a = Some r → owned hp ≡ₚ owned_by r ++ owned (delete a hp).
Proof.
  intros Hr. unfold owned. rewrite <- (map_to_list_delete hp a r Hr).
  rewrite bind_cons. reflexivity.
Qed.

Lemma owned_overwrite (hp : gmap positive SessionData) a r r' :
  hp !! a = Some r → owned (<[a := r']> hp) ≡ₚ owned_by r' ++ owned (delete a hp).
Proof.
  intros Hr. rewrite <- insert_delete_eq.
  apply owned_insert_fresh, lookup_delete_eq.
Qed.

Lemma owned_same (hp : gmap positive SessionData) a r r' :
  hp !! a = Some r → owned_by r' = owned_by r → owned (<[a := r']> hp) ≡ₚ owned hp.
Proof.
  intros Hr E. rewrite (owned_overwrite hp a r r' Hr), E.
  symmetry. apply owned_delete, Hr.
Qed.

Lemma NoDup_submseteq_inv {A} (l k : list A) : l ⊆+ k → NoDup k → NoDup l.
Proof.
  intros [k' Hk]%submseteq_Permutation. rewrite Hk.
  intros Hn. apply NoDup_app in Hn. tauto.
Qed.

(** What one call does to the objects, exactly: those released, pointed to
    or dropped after it are those released, pointed to or handed over before
    it. *)
Lemma step_accounting P st o res st' :
  run P st o = Some (res, st') →
  released st' ++ owned (heap st') ++ loses st o
  ≡ₚ released st ++ owned (heap st) ++ given o.
Proof.
  intros H. pose proof (fresh_not_live (heap st)) as Hf.
  destruct o; cbn [run given loses] in *; rewrite ?app_nil_r.
  - apply ret_handle_Some in H as (h & H & _).
    returned H st gInvalidSession a r.
    rewrite (Session_default_spec st a r Hh Hr) in H. injection H as _ <-. cbn.
    rewrite (owned_same _ a r) by (exact Hr || reflexivity). reflexivity.
  - apply ret_handle_Some in H as (h & H & _).
    rewrite Session_init_spec in H. injection H as _ <-. cbn.
    rewrite (owned_insert_fresh _ _ _ Hf). unfold owned_by. cbn.
    solve_Permutation.
  - apply ret_handle_Some in H as (h & H & _).
    rewrite Session_id_spec in H. injection H as _ <-. cbn.
    rewrite (owned_insert_fresh _ _ _ Hf). reflexivity.
  - apply ret_handle_Some in H as (h & H & _).
    returned H st theSessR a r.
    rewrite (Session_copy_spec st theSessR a r Hh Hr) in H. injection H as _ <-. cbn.
    rewrite (owned_same _ a r) by (exact Hr || reflexivity). reflexivity.
  - destruct (mutable h); [|discriminate].
    apply ret_unit_Some in H as [H _].
    returned H st h a r.
    rewrite (Session_destroy_spec st h a r Hh Hr) in H. injection H as <-.
    destruct (mRefCt r - 1 <=? 0); cbn.
    + rewrite (owned_delete (heap st) a r Hr). unfold owned_by.
      solve_Permutation.
    + rewrite (owned_same _ a r) by (exact Hr || reflexivity). reflexivity.
  - destruct (mutable h); [|discriminate].
    apply ret_unit_Some in H as [H _].
    destruct (mRefP st h) as [a|] eqn:Hh;
      [|unfold Session_assign in H; rewrite Hh in H; discriminate H].
    destruct (mRefP st theSessR) as [b|] eqn:Hb;
      [|unfold Session_assign in H; rewrite Hh, Hb in H; discriminate H].
    destruct (decide (a = b)) as [<-|Hab].
    { rewrite (Session_assign_same st h theSessR a Hh Hb) in H.
      injection H as <-. reflexivity. }
    destruct (heap st !! b) as [rb|] eqn:Hrb;
      [|unfold Session_assign, InterlockedIncrement in H; rewrite Hh, Hb in H;
        cbn in H; rewrite decide_True in H by exact Hab; rewrite Hrb in H;
        discriminate H].
    destruct (heap st !! a) as [ra|] eqn:Hra;
      [|unfold Session_assign, InterlockedIncrement, release in H;
        rewrite Hh, Hb in H; cbn in H; rewrite decide_True in H by exact Hab;
        rewrite Hrb in H; cbn in H; rewrite lookup_insert_ne in H by congruence;
        rewrite Hra in H; discriminate H].
    rewrite (Session_assign_spec st h theSessR a b ra rb Hh Hb Hab Hra Hrb) in H.
    injection H as <-.
    assert (Hra' : <[b := set_mRefCt (mRefCt rb + 1) rb]> (heap st) !! a = Some ra)
      by (rewrite lookup_insert_ne by congruence; exact Hra).
    pose proof (owned_same (heap st) b rb (set_mRefCt (mRefCt rb + 1) rb) Hrb eq_refl)
      as Hsame.
    destruct (mRefCt ra - 1 <=? 0); cbn.
    + rewrite <- Hsame. rewrite (owned_delete _ a ra Hra'). unfold owned_by.
      solve_Permutation.
    + rewrite (owned_same _ a ra) by (exact Hra' || reflexivity).
      rewrite Hsame. reflexivity.
  - destruct (IsValid st h); [|discriminate]. injection H as _ <-. reflexivity.
  - destruct (mutable h); [|discriminate].
    apply ret_unit_Some in H as [H _].
    returned H st h a r.
    rewrite (mRefP_deref st h a r Hh Hr).
    destruct (Z.ltb_spec 1 (mRefCt r)) as [Hc|Hc].
    + rewrite (Init_shared _ _ _ _ _ h st a r Hh Hr Hc) in H. injection H as <-.
      cbn. rewrite owned_insert_fresh
        by (rewrite lookup_insert_ne by congruence; exact Hf).
      rewrite (owned_same _ a r) by (exact Hr || reflexivity).
      unfold owned_by. cbn. solve_Permutation.
    + rewrite (Init_exclusive _ _ _ _ _ h st a r Hh Hr Hc) in H. injection H as <-.
      cbn. rewrite (owned_overwrite _ a r _ Hr), (owned_delete (heap st) a r Hr).
      unfold owned_by at 1. cbn [mKeyP mCertP init_record].
      solve_Permutation.
  - apply ret_unit_Some in H as [H _].
    returned H st h a r.
    rewrite (Touch_spec now st h a r Hh Hr) in H. injection H as <-. cbn.
    rewrite (owned_same _ a r) by (exact Hr || reflexivity). reflexivity.
  - apply ret_bool_Some in H as (b & H & _).
    returned H st h a r.
    rewrite (TestSetRecvSeq_spec theSeq isReliable st h a r Hh Hr) in H.
    cbn zeta in H. injection H as _ <-.
    destruct (if isReliable then _ else _); [|reflexivity]. cbn.
    rewrite (owned_same _ a r) by (exact Hr || reflexivity). reflexivity.
  - apply ret_bool_Some in H as (b & H & _).
    returned H st h a r.
    rewrite (TestSetSendSeq_spec theSeq isReliable st h a r Hh Hr) in H.
    cbn zeta in H. injection H as _ <-.
    destruct (if isReliable then _ else _); [|reflexivity]. cbn.
    rewrite (owned_same _ a r) by (exact Hr || reflexivity). reflexivity.
  - destruct (Dump P verbose st h); [|discriminate]. injection H as _ <-. reflexivity.
Qed.

Lemma step_objects P st o res st' :
  run P st o = Some (res, st') →
  released st' ++ owned (heap st') ⊆+ released st ++ owned (heap st) ++ given o.
Proof.
  intros H. rewrite <- (step_accounting P st o res st' H).
  solve_submseteq.
Qed.

Lemma run_all_objects P os : ∀ st st',
  run_all P st os = Some st' →
  released st' ++ owned (heap st')
  ⊆+ released st ++ owned (heap st) ++ (os ≫= given).
Proof.
  induction os as [|o os IH]; intros st st' H; cbn [run_all] in H.
  - injection H as <-. cbn. rewrite app_nil_r. reflexivity.
  - destruct (run P st o) as [[res st1]|] eqn:Ho; [|discriminate].
    cbn [mbind option_bind] in H.
    etrans; [apply (IH st1 st' H)|]. rewrite bind_cons.
    pose proof (submseteq_skips_r (os ≫= given) _ _
                  (step_objects P st o res st1 Ho)) as Hs.
    rewrite <- !(assoc_L (++)) in Hs. exact Hs.
Qed.

(** X18: every object is accounted for: after a program, the objects released,
    those the live records point to and those dropped by an in-place [Init]
    are, each as often, the objects that were released or pointed to before
    and those the program handed over.  So no object vanishes except through
    an [Init] that overwrites the pointers of an unshared record. *)
Theorem objects_accounted_for P os : ∀ st st',
  run_all P st os = Some st' →
  released st' ++ owned (heap st') ++ lost_by P st os
  ≡ₚ released st ++ owned (heap st) ++ (os ≫= given).
Proof.
  induction os as [|o os IH]; intros st st' H; cbn [run_all lost_by] in *.
  - injection H as <-. reflexivity.
  - destruct (run P st o) as [[res st1]|] eqn:Ho; [|discriminate].
    cbn [mbind option_bind] in H. rewrite bind_cons.
    pose proof (IH st1 st' H) as E1.
    pose proof (step_accounting P st o res st1 Ho) as E2.
    transitivity ((released st' ++ owned (heap st') ++ lost_by P st1 os) ++ loses st o);
      [solve_Permutation|].
    rewrite E1.
    transitivity ((released st1 ++ owned (heap st1) ++ loses st o) ++ os ≫= given);
      [solve_Permutation|].
    rewrite E2. solve_Permutation.
Qed.

Lemma objects_accounted_for_witness :
  [KeyObj 7%positive; CertObj 8%positive] ++ owned (heap initial_state)
    ++ lost_by demoP initial_state leak_program
  ≡ₚ released initial_state ++ owned (heap initial_state)
     ++ (leak_program ≫= given).
Proof.
  apply (objects_accounted_for demoP leak_program initial_state
           (mkState (heap initial_state) [Some sentinel; None] 3
                    [KeyObj 7%positive; CertObj 8%positive])).
  vm_compute. reflexivity.
Defined.

(** X19: no double free: if the objects already released, those the live records
    point to and those the program will hand over are all different, then
    after the program no object has been released twice, no released object
    is still pointed to by a record, and no two records point to the same
    object; and whatever has been released was released before, owned by a
    record before, or handed over by the program. *)
Theorem no_object_released_twice P st os st' :
  run_all P st os = Some st' →
  NoDup (released st ++ owned (heap st) ++ (os ≫= given)) →
  NoDup (released st' ++ owned (heap st'))
  ∧ ∀ x, x ∈ released st' →
         x ∈ released st ∨ x ∈ owned (heap st) ∨ x ∈ os ≫= given.
Proof.
  intros H Hn. pose proof (run_all_objects P os st st' H) as Hs. split.
  - exact (NoDup_submseteq_inv _ _ Hs Hn).
  - intros x Hx.
    assert (x ∈ released st' ++ owned (heap st')) as Hx'
      by (apply elem_of_app; left; exact Hx).
    pose proof (elem_of_submseteq _ _ x Hx' Hs) as Hk.
    rewrite !elem_of_app in Hk. exact Hk.
Qed.

Lemma no_object_released_twice_witness :
  NoDup (released two_sessions_end ++ owned (heap two_sessions_end))
  ∧ ∀ x, x ∈ released two_sessions_end →
         x ∈ released initial_state ∨ x ∈ owned (heap initial_state)
         ∨ x ∈ two_sessions_program ≫= given.
Proof.
  apply (no_object_released_twice demoP initial_state two_sessions_program
           two_sessions_end).
  - vm_compute. reflexivity.
  - vm_compute. repeat (apply NoDup_cons; split;
      [intros Hin; repeat (apply elem_of_cons in Hin as [Hin|Hin]; [discriminate|]);
       apply elem_of_nil in Hin; exact Hin|]).
    apply NoDup_nil. exact I.
Defined.

(** ** The text of the attributes *)

(** X20: the text [operator<<] writes for the attributes tells them apart:
    two descriptors with the same text have the same three flags and the
    same mode, where all unrecognised mode tags count as one (they all print
    as [UNKNOWN]). *)
Theorem show_EncryptAttributes_inj a b :
  show_EncryptAttributes a = show_EncryptAttributes b → a = b.
Proof.
  destruct a as [[] [] [] []], b as [[] [] [] []]; cbn;
    intros E; solve [reflexivity | discriminate E].
Qed.

Lemma show_EncryptAttributes_inj_witness :
  mkEncryptAttributes ENCRYPT_BLOWFISH true true false = battr.
Proof.
  apply (show_EncryptAttributes_inj
           (mkEncryptAttributes ENCRYPT_BLOWFISH true true false) battr).
  reflexivity.
Defined.
